(** * libDAI [util.h]: the [Diffs] convergence monitor

    A shallow embedding of [class Diffs] (include/dai/util.h, lines 200-248)
    and the properties of its sliding-window maximum.

    [Diffs] derives from [std::vector<Real>] and keeps two iterators into
    itself.  The constructor reserves [_maxsize] elements and [push] only
    calls [push_back] while [size() < _maxsize], so the storage is never
    reallocated and an iterator is faithfully an offset from [begin()].
    Dereferencing an offset outside [0, size()) is undefined behaviour in
    C++; here it is the [None] outcome of the method.

    The parts of the C++ standard library the class calls ([reserve],
    [max_element], the vector accessors) are modelled as the standard
    defines them, for an LP64 target (64-bit [long] and [size_t]).  Running
    out of memory in [reserve] is not modelled. *)

From Stdlib Require Import ZArith Lia.
From Stdlib Require Import Floats.SpecFloat.
From stdpp Require Import base tactics option list strings.

Local Open Scope Z_scope.

(** ** [Real] (util.h line 90: [typedef double Real]) *)

(** An IEEE 754 binary64 value, as the Standard Library specifies it.  The
    comparisons below never look at [prec] and [emax]; every theorem holds
    for all of [spec_float], the valid binary64 values included. *)
Abbreviation Real := spec_float.

Definition prec : Z := 53.
Definition emax : Z := 1024.

(** [operator<] on [double]: false as soon as one side is NaN. *)
Definition Rlt (x y : Real) : bool := SFltb x y.
(** [x > y] is [y < x]. *)
Definition Rgt (x y : Real) : bool := SFltb y x.

(** The double nearest to an integer (exact for the small literals used). *)
Definition RealZ (z : Z) : Real := binary_normalize prec emax z 0 false.

Definition NaN : Real := S754_nan.

(** [isnan] (declared at util.h line 73). *)
Definition isnan (x : Real) : bool :=
  match x with
  | S754_nan => true
  | _ => false
  end.

(** *** The order of [Real] *)

(** A non-NaN value is ranked by a lexicographic key: class, then exponent,
    then mantissa (both negated below zero). *)
Definition key (x : Real) : Z * Z * Z :=
  match x with
  | S754_nan => (0, 0, 0)
  | S754_zero _ => (0, 0, 0)
  | S754_infinity true => (-2, 0, 0)
  | S754_infinity false => (2, 0, 0)
  | S754_finite false m e => (1, e, Zpos m)
  | S754_finite true m e => (-1, - e, Zneg m)
  end.

Definition key_lt (a b : Z * Z * Z) : Prop :=
  a.1.1 < b.1.1 \/
  (a.1.1 = b.1.1 /\ (a.1.2 < b.1.2 \/ (a.1.2 = b.1.2 /\ a.2 < b.2))).

Ltac order_cases :=
  repeat match goal with
  | |- context [Pos.compare_cont Eq ?a ?b] =>
      change (Pos.compare_cont Eq a b) with (Pos.compare a b)
  | |- context [Z.compare ?a ?b] => destruct (Z.compare_spec a b)
  | |- context [Pos.compare ?a ?b] => destruct (Pos.compare_spec a b)
  end.

(** ** Machine integers of the LP64 target *)

Definition LONG_MIN : Z := - 2 ^ 63.
Definition LONG_MAX : Z := 2 ^ 63 - 1.
Definition SIZE_MAX : Z := 2 ^ 64 - 1.

Definition in_long (n : Z) : Prop := LONG_MIN <= n <= LONG_MAX.

(** The implicit conversion [long -> size_t] of the member initialiser
    [_maxsize(maxsize)]: reduction modulo 2^64. *)
Definition size_t_of_long (n : Z) : Z := n mod (SIZE_MAX + 1).

(** [std::vector<double>::max_size()]: [PTRDIFF_MAX / sizeof(double)]. *)
Definition vector_max_size : Z := LONG_MAX / 8.

(** ** The object state *)

Record Diffs : Type := mkDiffs {
  elems : list Real;      (* the [std::vector<Real>] base sub-object *)
  _maxsize : Z;           (* [size_t _maxsize] *)
  _def : Real;            (* [Real _def] *)
  _pos : nat;             (* iterator, as an offset from [begin()] *)
  _maxpos : nat           (* iterator, as an offset from [begin()] *)
}.

(** The exception a constructor call can end in: [std::vector::reserve]
    throws [std::length_error] when asked for more than [max_size()].
    The constructor has no check of its own. *)
Inductive exception : Type := length_error.

(** ** Methods: state passing with an out-of-bounds outcome *)

Definition M (A : Type) : Type := Diffs -> option (A * Diffs).

#[global] Instance M_ret : MRet M := fun A a d => Some (a, d).
#[global] Instance M_bind : MBind M := fun A B f m d =>
  match m d with
  | Some (a, d') => f a d'
  | None => None
  end.

(** Members of the [std::vector] base. *)
Definition size : M Z := fun d => Some (Z.of_nat (length (elems d)), d).
Definition begin : M nat := fun d => Some (0%nat, d).
Definition end_ : M nat := fun d => Some (length (elems d), d).
Definition push_back (x : Real) : M unit := fun d =>
  Some (tt, mkDiffs (elems d ++ [x]) (_maxsize d) (_def d) (_pos d) (_maxpos d)).
Definition back : M Real := fun d =>
  match last (elems d) with
  | Some v => Some (v, d)
  | None => None
  end.

(** [*it] as an rvalue and [*it = x]. *)
Definition deref (it : nat) : M Real := fun d =>
  match elems d !! it with
  | Some v => Some (v, d)
  | None => None
  end.
Definition assign (it : nat) (x : Real) : M unit := fun d =>
  if decide (it < length (elems d))%nat
  then Some (tt, mkDiffs (<[it:=x]> (elems d)) (_maxsize d) (_def d) (_pos d) (_maxpos d))
  else None.

(** Reading and writing the private members. *)
Definition get_maxsize : M Z := fun d => Some (_maxsize d, d).
Definition get_def : M Real := fun d => Some (_def d, d).
Definition get_pos : M nat := fun d => Some (_pos d, d).
Definition get_maxpos : M nat := fun d => Some (_maxpos d, d).
Definition set_pos (it : nat) : M unit := fun d =>
  Some (tt, mkDiffs (elems d) (_maxsize d) (_def d) it (_maxpos d)).
Definition set_maxpos (it : nat) : M unit := fun d =>
  Some (tt, mkDiffs (elems d) (_maxsize d) (_def d) (_pos d) it).

(** [std::max_element] on a range, as the standard defines it: the scan
    starts with the first element as [largest] and moves on to a later
    element only when [*largest < *it], so it returns the first of the
    greatest elements.  The result is an offset into the range ([0], which
    is [last], for an empty range). *)
Fixpoint max_element_from (largest : nat) (lv : Real) (i : nat) (l : list Real) : nat :=
  match l with
  | [] => largest
  | y :: l' =>
      if Rlt lv y then max_element_from i y (S i) l'
      else max_element_from largest lv (S i) l'
  end.

Definition max_element_range (l : list Real) : nat :=
  match l with
  | [] => 0%nat
  | x :: l' => max_element_from 0%nat x 1%nat l'
  end.

(** [max_element(first, last)] over the vector's own storage. *)
Definition max_element (first last : nat) : M nat := fun d =>
  Some ((first + max_element_range (take (last - first) (drop first (elems d))))%nat, d).

(** *** Constructor (lines 208-212) *)

(** [reserve(n)] throws [std::length_error] if [n > max_size()]; otherwise
    it changes the capacity only, not the elements. *)
Definition reserve (n : Z) (v : list Real) : exception + list Real :=
  if vector_max_size <? n then inl length_error else inr v.

(** [_maxsize(maxsize)], [reserve(_maxsize)], then [_pos = begin()] and
    [_maxpos = begin()]: both offsets are 0. *)
Definition Diffs_ctor (maxsize : Z) (def : Real) : exception + Diffs :=
  let ms := size_t_of_long maxsize in
  match reserve ms [] with
  | inl e => inl e
  | inr v => inr (mkDiffs v ms def 0%nat 0%nat)
  end.

(** *** [maxDiff] (lines 214-219) *)

Definition maxDiff : M Real :=
  sz ← size; ms ← get_maxsize;
  if sz <? ms then get_def
  else mp ← get_maxpos; deref mp.

(** *** [push] (lines 221-245) *)

Definition push (x : Real) : M unit :=
  sz ← size; ms ← get_maxsize;
  if sz <? ms then
    push_back x;;
    e ← end_; set_pos e;;
    sz' ← size;
    if 1 <? sz' then
      mp ← get_maxpos; m ← deref mp; b ← back;
      if Rlt m b then
        e' ← end_; set_maxpos e';;
        mp' ← get_maxpos; set_maxpos (Nat.pred mp')
      else mret tt
    else
      b ← begin; set_maxpos b
  else
    p ← get_pos; e ← end_;
    (if decide (p = e) then b ← begin; set_pos b else mret tt);;
    mp ← get_maxpos; p ← get_pos;
    if decide (mp = p) then
      set_pos (S p);; assign p x;;
      b ← begin; e' ← end_; i ← max_element b e'; set_maxpos i
    else
      m ← deref mp;
      (if Rgt x m then set_maxpos p else mret tt);;
      p' ← get_pos; set_pos (S p');; assign p' x.

(** *** [maxSize] (line 247) *)

Definition maxSize : M Z := get_maxsize.

(** ** Running calls *)

(** A sequence of pushes. *)
Fixpoint pushes (xs : list Real) : M unit :=
  match xs with
  | [] => mret tt
  | x :: xs' => push x;; pushes xs'
  end.

(** Push each sample and poll [maxDiff] after it. *)
Fixpoint maxDiff_trace (xs : list Real) : M (list Real) :=
  match xs with
  | [] => mret []
  | x :: xs' =>
      push x;; v ← maxDiff; vs ← maxDiff_trace xs'; mret (v :: vs)
  end.

(** Construct a monitor, then push each sample and poll [maxDiff]. *)
Definition monitor_trace (maxsize : Z) (def : Real) (xs : list Real)
  : option (list Real) :=
  match Diffs_ctor maxsize def with
  | inr d => fst <$> maxDiff_trace xs d
  | inl _ => None
  end.

(** An arbitrary client: any interleaving of the public methods. *)
Inductive call : Type :=
  | Push (x : Real)
  | MaxDiff
  | MaxSize.

Inductive answer : Type :=
  | Done
  | Value (v : Real)
  | Count (n : Z).

Definition do_call (c : call) : M answer :=
  match c with
  | Push x => push x;; mret Done
  | MaxDiff => v ← maxDiff; mret (Value v)
  | MaxSize => n ← maxSize; mret (Count n)
  end.

Fixpoint run (cs : list call) : M (list answer) :=
  match cs with
  | [] => mret []
  | c :: cs' => a ← do_call c; r ← run cs'; mret (a :: r)
  end.

(** ** The rest of util.h *)

(** What a call of a free function ends in: a value, an exception of the
    standard library, or undefined behaviour. *)
Inductive outcome (A : Type) : Type :=
  | Returns (a : A)
  | Throws (e : exception)
  | Undefined.
Arguments Returns {A} a.
Arguments Throws {A} e.
Arguments Undefined {A}.

(** A [for] loop over the iterators (or indices) [its], in order; the body
    may run into undefined behaviour. *)
Fixpoint for_iter {S : Type} (body : nat -> S -> option S) (its : list nat)
    (s : S) : option S :=
  match its with
  | [] => Some s
  | it :: its' =>
      match body it s with
      | Some s' => for_iter body its' s'
      | None => None
      end
  end.

(** *** [abs] (lines 122-126) *)

(** What the template asks of [T]: [t < 0] and unary minus.  Unary minus
    may overflow, which is undefined for the signed integer types. *)
Class Signed (T : Type) : Type := {
  lt_zero : T -> bool;
  negate : T -> option T
}.

(** [(t < 0) ? (-t) : t] *)
Definition abs {T : Type} `{Signed T} (t : T) : option T :=
  if lt_zero t then negate t else Some t.

(** [T = Real]: the literal [0] converts to [+0.0]; [-t] flips the sign. *)
#[global] Instance Signed_Real : Signed Real := {
  lt_zero t := Rlt t (S754_zero false);
  negate t := Some (SFopp t)
}.

(** [T = long]: [-t] overflows for [LONG_MIN]. *)
#[global] Instance Signed_long : Signed Z := {
  lt_zero t := t <? 0;
  negate t := if (LONG_MIN <=? - t) && (- t <=? LONG_MAX) then Some (- t) else None
}.

(** *** [concat] (lines 184-194) *)

(** [w.reserve(n)] for a vector whose [max_size()] is [max_size]. *)
Definition reserve_vector {T : Type} (max_size n : Z) (w : list T)
  : exception + list T :=
  if max_size <? n then inl length_error else inr w.

(** The two loops read [u[i]] and [v[i]] unchecked.  The sum of the two
    sizes is a [size_t] sum. *)
Definition concat {T : Type} (max_size : Z) (u v : list T) : outcome (list T) :=
  let w := [] in
  match reserve_vector max_size
          ((Z.of_nat (length u) + Z.of_nat (length v)) mod (SIZE_MAX + 1)) w with
  | inl e => Throws e
  | inr w =>
      match for_iter (fun i w => x ← u !! i; Some (w ++ [x]))
                     (seq 0 (length u)) w with
      | None => Undefined
      | Some w =>
          match for_iter (fun i w => x ← v !! i; Some (w ++ [x]))
                         (seq 0 (length v)) w with
          | None => Undefined
          | Some w => Returns w
          end
      end
  end.

(** *** The stream operators (lines 147-182) *)

(** An output stream in its good state: the characters written so far.
    [os << s] appends the string [s]. *)
Definition ostream : Type := string.

Definition put (s : string) (os : ostream) : ostream := os +:+ s.

(** [(it != x.begin() ? ", " : "")] *)
Definition separator (it : nat) : string :=
  if decide (it <> 0%nat) then ", " else "".

(** [operator<<] for [std::vector<T>] (lines 148-155); [emit] is the
    [operator<<] of [T]. *)
Definition print_vector {T : Type} (emit : T -> ostream -> ostream)
    (x : list T) (os : ostream) : option ostream :=
  let os := put "(" os in
  os ← for_iter (fun it os => e ← x !! it; Some (emit e (put (separator it) os)))
                (seq 0 (length x)) os;
  Some (put ")" os).

(** [operator<<] for [std::set<T>] (lines 158-165); [x] is the sequence of
    the set's elements in iteration order. *)
Definition print_set {T : Type} (emit : T -> ostream -> ostream)
    (x : list T) (os : ostream) : option ostream :=
  let os := put "{" os in
  os ← for_iter (fun it os => e ← x !! it; Some (emit e (put (separator it) os)))
                (seq 0 (length x)) os;
  Some (put "}" os).

(** [operator<<] for [std::map<T1,T2>] (lines 168-175); [x] is the sequence
    of the map's entries in iteration order. *)
Definition print_map {T1 T2 : Type}
    (emit1 : T1 -> ostream -> ostream) (emit2 : T2 -> ostream -> ostream)
    (x : list (T1 * T2)) (os : ostream) : option ostream :=
  let os := put "{" os in
  os ← for_iter (fun it os => e ← x !! it;
                   Some (emit2 e.2 (put "->" (emit1 e.1 (put (separator it) os)))))
                (seq 0 (length x)) os;
  Some (put "}" os).


(** An [operator<<] that writes, after what the stream holds, the text
    [show e] of its argument. *)
Definition appends {T : Type} (emit : T -> ostream -> ostream)
    (show : T -> string) : Prop :=
  forall e os, emit e os = os +:+ show e.

(** The text of a sequence: the items with [", "] between them. *)
Definition joined (items : list string) : string := String.concat ", " items.

(** The slot of the buffer that holds the sample pushed as number [i]
    (counting from 0). *)
Definition slot_of (cap : Z) (i : nat) : nat := Z.to_nat (Z.of_nat i mod cap).

(** After [n >= 1] pushes [_pos] is one past slot [(n - 1) mod cap]. *)
Definition pos_after (cap : Z) (h : list Real) (d : Diffs) : Prop :=
  h <> [] -> Z.of_nat (_pos d) = (Z.of_nat (length h) - 1) mod cap + 1.

(** ** Vocabulary of the properties *)

Definition nan_free (l : list Real) : bool :=
  forallb (fun w => negb (isnan w)) l.

(** [v] is in [l] and no element of [l] compares greater: what
    [std::max_element] promises of the element it returns. *)
Definition maximal (v : Real) (l : list Real) : Prop :=
  v ∈ l /\ forall w, w ∈ l -> Rlt v w = false.

(** [v] is in [l] and every element of [l] is [<= v]. *)
Definition maximum (v : Real) (l : list Real) : Prop :=
  v ∈ l /\ forall w, w ∈ l -> SFleb w v = true.

(** The last [c] samples of a push history. *)
Definition last_n (c : nat) (l : list Real) : list Real :=
  drop (length l - c) l.

(** The stored samples, oldest first: from [_pos] to the end of the
    buffer, then from its start up to [_pos]. *)
Definition window (d : Diffs) : list Real :=
  drop (_pos d) (elems d) ++ take (_pos d) (elems d).

(** The slot the next [push] of a full monitor writes (lines 234-235:
    [_pos] wraps from [end()] to [begin()] at the start of the call). *)
Definition writeCursor (d : Diffs) : nat :=
  if decide (_pos d = length (elems d)) then 0%nat else _pos d.

(** The state reached from a monitor constructed with [cap >= 1] and [def]
    by pushing the history [h]. *)
Record Inv (cap : Z) (def : Real) (h : list Real) (d : Diffs) : Prop := {
  inv_maxsize : _maxsize d = cap;
  inv_def : _def d = def;
  inv_len : Z.of_nat (length (elems d)) = Z.min (Z.of_nat (length h)) cap;
  inv_pos_le : (_pos d <= length (elems d))%nat;
  inv_pos_fill : Z.of_nat (length h) <= cap -> _pos d = length (elems d);
  inv_pos_pos : h <> [] -> (1 <= _pos d)%nat;
  inv_window : window d = last_n (Z.to_nat cap) h;
  inv_max : h <> [] ->
    exists v, elems d !! _maxpos d = Some v /\
              forall w, w ∈ elems d -> Rlt v w = false;
  inv_first : Z.of_nat (length h) <= cap ->
    forall v j w, elems d !! _maxpos d = Some v ->
      (j < _maxpos d)%nat -> elems d !! j = Some w -> SFleb v w = false;
  inv_nan : forall v, elems d !! _maxpos d = Some v ->
    isnan v = true -> _maxpos d = 0%nat
}.

Arguments inv_maxsize {cap def h d} _.
Arguments inv_def {cap def h d} _.
Arguments inv_len {cap def h d} _.
Arguments inv_pos_le {cap def h d} _.
Arguments inv_pos_fill {cap def h d} _ _.
Arguments inv_pos_pos {cap def h d} _ _.
Arguments inv_window {cap def h d} _.
Arguments inv_max {cap def h d} _ _.
Arguments inv_first {cap def h d} _ _ _ _ _ _ _ _.
Arguments inv_nan {cap def h d} _ _ _ _.

Create HintDb real_order.

(** Unfolding the method primitives. *)
Ltac run_M :=
  unfold mbind, mret, M_bind, M_ret, size, begin, end_, push_back, back,
    deref, assign, get_maxsize, get_def, get_pos, get_maxpos, set_pos,
    set_maxpos, max_element, Rgt; cbn.

(** ** Facts about the order of [Real] *)

Lemma Rlt_key (x y : Real) :
  Rlt x y = true <->
  isnan x = false /\ isnan y = false /\ key_lt (key x) (key y).
Proof.
  unfold Rlt, SFltb, SFcompare, key_lt.
  destruct x as [[]|[]| |[] m e], y as [[]|[]| |[] m' e']; cbn;
    order_cases; cbn; intuition (try discriminate; try lia).
Qed.

Lemma Rle_key (x y : Real) :
  SFleb x y = true <->
  isnan x = false /\ isnan y = false /\ ~ key_lt (key y) (key x).
Proof.
  unfold SFleb, SFcompare, key_lt.
  destruct x as [[]|[]| |[] m e], y as [[]|[]| |[] m' e']; cbn;
    order_cases; cbn; intuition (try discriminate; try lia).
Qed.

Lemma Req_key (x y : Real) :
  SFeqb x y = true <->
  isnan x = false /\ isnan y = false /\ key x = key y.
Proof.
  unfold SFeqb, SFcompare.
  destruct x as [[]|[]| |[] m e], y as [[]|[]| |[] m' e']; cbn;
    order_cases; cbn; intuition (simplify_eq; try done; try lia).
Qed.

Lemma key_lt_trans a b c : key_lt a b -> key_lt b c -> key_lt a c.
Proof. unfold key_lt. lia. Qed.

Lemma key_lt_irrefl a : ~ key_lt a a.
Proof. unfold key_lt. lia. Qed.

Lemma key_lt_le_trans a b c : key_lt a b -> ~ key_lt c b -> key_lt a c.
Proof. unfold key_lt. lia. Qed.

Lemma Rlt_irrefl (x : Real) : Rlt x x = false.
Proof.
  destruct (Rlt x x) eqn:E; [|done].
  apply Rlt_key in E as (_ & _ & E). by apply key_lt_irrefl in E.
Qed.

Lemma Rlt_trans (x y z : Real) :
  Rlt x y = true -> Rlt y z = true -> Rlt x z = true.
Proof.
  rewrite !Rlt_key. intros (? & ? & ?) (? & ? & ?).
  eauto using key_lt_trans.
Qed.

Lemma Rlt_le_trans (x y z : Real) :
  Rlt x y = true -> SFleb y z = true -> Rlt x z = true.
Proof.
  rewrite !Rlt_key, Rle_key. intros (? & ? & ?) (? & ? & ?).
  eauto using key_lt_le_trans.
Qed.

Lemma Rlt_not_nan (x y : Real) :
  Rlt x y = true -> isnan x = false /\ isnan y = false.
Proof. rewrite Rlt_key. tauto. Qed.

Lemma Rlt_false_trans (x y z : Real) :
  Rlt x y = true -> Rlt x z = false -> Rlt y z = false.
Proof.
  intros Hxy Hxz. destruct (Rlt y z) eqn:E; [|done].
  by rewrite (Rlt_trans _ _ _ Hxy E) in Hxz.
Qed.

Lemma Rlt_false_le_false (x y z : Real) :
  Rlt x y = true -> Rlt x z = false -> SFleb y z = false.
Proof.
  intros Hxy Hxz. destruct (SFleb y z) eqn:E; [|done].
  by rewrite (Rlt_le_trans _ _ _ Hxy E) in Hxz.
Qed.

(** Without NaN the order is total. *)
Lemma Rle_total (x y : Real) :
  isnan x = false -> isnan y = false -> Rlt x y = false -> SFleb y x = true.
Proof.
  intros Hx Hy Hlt. apply Rle_key. repeat split; try done.
  intros Hk. assert (Rlt x y = true) by (by apply Rlt_key).
  congruence.
Qed.

Lemma Req_not_lt (x y : Real) : SFeqb x y = true -> Rlt y x = false.
Proof.
  intros (_ & _ & E)%Req_key. destruct (Rlt y x) eqn:L; [|done].
  apply Rlt_key in L as (_ & _ & L). rewrite E in L.
  by apply key_lt_irrefl in L.
Qed.


#[local] Hint Resolve Rlt_irrefl Rlt_false_trans Rlt_false_le_false : real_order.

(** The integer literals used below are binary64 values. *)
Lemma RealZ_literals_valid :
  forallb (fun z => valid_binary prec emax (RealZ z))
          [-1; 0; 1; 2; 3; 4; 5; 7; 9] = true.
Proof. reflexivity. Qed.

(** ** The two branches of [push] and [maxDiff] in closed form *)

Lemma maxDiff_filling (d : Diffs) :
  Z.of_nat (length (elems d)) < _maxsize d ->
  maxDiff d = Some (_def d, d).
Proof.
  intros H. unfold maxDiff. run_M.
  destruct (Z.ltb_spec (Z.of_nat (length (elems d))) (_maxsize d)); [done|lia].
Qed.

Lemma maxDiff_full (d : Diffs) :
  _maxsize d <= Z.of_nat (length (elems d)) ->
  maxDiff d = (fun v => (v, d)) <$> (elems d !! _maxpos d).
Proof.
  intros H. unfold maxDiff. run_M.
  destruct (Z.ltb_spec (Z.of_nat (length (elems d))) (_maxsize d)); [lia|].
  by destruct (elems d !! _maxpos d).
Qed.

Lemma push_filling (x : Real) (d : Diffs) :
  Z.of_nat (length (elems d)) < _maxsize d ->
  push x d =
    match elems d with
    | [] => Some (tt, mkDiffs [x] (_maxsize d) (_def d) 1%nat 0%nat)
    | _ :: _ =>
        match (elems d ++ [x]) !! _maxpos d with
        | Some m =>
            Some (tt, mkDiffs (elems d ++ [x]) (_maxsize d) (_def d)
                    (S (length (elems d)))
                    (if Rlt m x then length (elems d) else _maxpos d))
        | None => None
        end
    end.
Proof.
  intros H. destruct d as [l ms df p mp]; cbn in *. unfold push. run_M.
  destruct (Z.ltb_spec (Z.of_nat (length l)) ms); [|lia].
  rewrite length_app; cbn.
  destruct l as [|y l]; [done|].
  destruct (Z.ltb_spec 1 (Z.of_nat (length (y :: l) + 1))); [|cbn in *; lia].
  cbn -[lookup]. change (y :: l ++ [x]) with ((y :: l) ++ [x]).
  destruct (((y :: l) ++ [x]) !! mp) as [m|]; [|done].
  cbn [elems]. rewrite last_snoc. cbn.
  replace (S (length l + 1)) with (S (S (length l))) by lia.
  destruct (Rlt m x); cbn; [|done].
  rewrite length_app. cbn. repeat f_equal. lia.
Qed.

Lemma push_full (x : Real) (d : Diffs) :
  _maxsize d <= Z.of_nat (length (elems d)) ->
  push x d =
    let p := if decide (_pos d = length (elems d)) then 0%nat else _pos d in
    if decide (_maxpos d = p) then
      if decide (p < length (elems d))%nat then
        Some (tt, mkDiffs (<[p:=x]> (elems d)) (_maxsize d) (_def d) (S p)
                (max_element_range (<[p:=x]> (elems d))))
      else None
    else
      match elems d !! _maxpos d with
      | Some m =>
          if decide (p < length (elems d))%nat then
            Some (tt, mkDiffs (<[p:=x]> (elems d)) (_maxsize d) (_def d) (S p)
                    (if Rlt m x then p else _maxpos d))
          else None
      | None => None
      end.
Proof.
  intros H. destruct d as [l ms df p mp]; cbn in *. unfold push. run_M.
  destruct (Z.ltb_spec (Z.of_nat (length l)) ms); [lia|].
  assert (Hscan : forall v : list Real, take (length v - 0) (drop 0 v) = v).
  { intros v. rewrite Nat.sub_0_r. apply firstn_all. }
  destruct (decide (p = length l)) as [->|Hp];
    (destruct (decide (mp = 0%nat)) as [->|Hm0] ||
     destruct (decide (mp = p)) as [->|Hm]); cbn;
    repeat (case_decide; cbn; simplify_eq); try done; try lia;
    rewrite ?Hscan; try done;
    unfold Rlt; repeat (case_match; cbn in *; simplify_eq); try done; try lia.
Qed.

(** ** [std::max_element] returns a maximal element *)

Lemma max_element_from_spec (l pre : list Real) (lg : nat) (lv : Real) :
  pre !! lg = Some lv ->
  (forall w, w ∈ pre -> Rlt lv w = false) ->
  (isnan lv = true -> lg = 0%nat) ->
  exists v, (pre ++ l) !! max_element_from lg lv (length pre) l = Some v /\
            (forall w, w ∈ pre ++ l -> Rlt v w = false) /\
            (isnan v = true -> max_element_from lg lv (length pre) l = 0%nat).
Proof.
  revert pre lg lv. induction l as [|y l IH]; intros pre lg lv Hlg Hmax Hnan.
  - cbn. rewrite app_nil_r. eauto.
  - cbn [max_element_from].
    replace (S (length pre)) with (length (pre ++ [y]))
      by (rewrite length_app; cbn; lia).
    replace (pre ++ y :: l) with ((pre ++ [y]) ++ l) by (by rewrite <- app_assoc).
    destruct (Rlt lv y) eqn:Hlt.
    + apply IH.
      * by rewrite lookup_app_r, Nat.sub_diag.
      * intros w [Hw| ->%list_elem_of_singleton]%elem_of_app.
        -- eapply Rlt_false_trans; eauto.
        -- apply Rlt_irrefl.
      * intros Hy. apply Rlt_not_nan in Hlt as [_ Hlt]. congruence.
    + apply IH.
      * by apply lookup_app_l_Some.
      * intros w [Hw| ->%list_elem_of_singleton]%elem_of_app; auto.
      * done.
Qed.

Lemma max_element_range_spec (l : list Real) :
  l <> [] ->
  exists v, l !! max_element_range l = Some v /\
            (forall w, w ∈ l -> Rlt v w = false) /\
            (isnan v = true -> max_element_range l = 0%nat).
Proof.
  destruct l as [|x l]; [done|]. intros _. cbn [max_element_range].
  apply (max_element_from_spec l [x] 0%nat x); [done| |done].
  intros w ->%list_elem_of_singleton. apply Rlt_irrefl.
Qed.

(** ** The window of a circular buffer *)

Lemma last_n_short (c : nat) (h : list Real) :
  (length h <= c)%nat -> last_n c h = h.
Proof. intros H. unfold last_n. by replace (length h - c)%nat with 0%nat by lia. Qed.

Lemma last_n_snoc_full (c : nat) (h : list Real) (x : Real) :
  (1 <= c <= length h)%nat ->
  last_n c (h ++ [x]) = drop 1 (last_n c h) ++ [x].
Proof.
  intros H. unfold last_n. rewrite length_app, drop_drop. cbn [length].
  rewrite drop_app_le by lia. do 2 f_equal. lia.
Qed.

Lemma length_last_n (c : nat) (h : list Real) :
  length (last_n c h) = (c `min` length h)%nat.
Proof. unfold last_n. rewrite length_drop. lia. Qed.

Lemma rotate_insert (l : list Real) (p : nat) (x : Real) :
  (p < length l)%nat ->
  drop (S p) (<[p:=x]> l) ++ take (S p) (<[p:=x]> l) =
  drop 1 (drop p l ++ take p l) ++ [x].
Proof.
  intros H. destruct (lookup_lt_is_Some_2 l p H) as [y Hy].
  rewrite (drop_S l y p Hy). cbn [drop app]. rewrite drop_0.
  rewrite (take_S_r (<[p:=x]> l) p x) by (by apply list_lookup_insert_eq).
  rewrite take_insert_ge, drop_insert_lt by lia.
  by rewrite app_assoc.
Qed.

Lemma elem_of_rotate (l : list Real) (p : nat) (w : Real) :
  w ∈ drop p l ++ take p l <-> w ∈ l.
Proof.
  rewrite <- (take_drop p l) at 3. rewrite !elem_of_app. tauto.
Qed.

Lemma elem_of_insert_inv (l : list Real) (p : nat) (x w : Real) :
  w ∈ <[p:=x]> l -> w = x \/ w ∈ l.
Proof.
  intros [j Hj]%list_elem_of_lookup.
  apply list_lookup_insert_Some in Hj as [(-> & -> & _)|(_ & Hj)]; [by left|].
  right. by eapply list_elem_of_lookup_2.
Qed.

Lemma window_writeCursor (d : Diffs) :
  (_pos d <= length (elems d))%nat ->
  window d = drop (writeCursor d) (elems d) ++ take (writeCursor d) (elems d).
Proof.
  intros H. unfold window, writeCursor. case_decide as E; [|done].
  rewrite E, drop_all, firstn_all, drop_0, take_0. by rewrite app_nil_r.
Qed.

(** ** Lists without NaN *)

Lemma nan_free_elem (l : list Real) (w : Real) :
  nan_free l = true -> w ∈ l -> isnan w = false.
Proof.
  unfold nan_free. rewrite forallb_forall. intros H Hw%list_elem_of_In.
  apply H in Hw. by destruct (isnan w).
Qed.

Lemma nan_free_app (l k : list Real) :
  nan_free (l ++ k) = nan_free l && nan_free k.
Proof. apply forallb_app. Qed.

Lemma nan_free_take (k : nat) (l : list Real) :
  nan_free l = true -> nan_free (take k l) = true.
Proof.
  intros H. rewrite <- (take_drop k l), nan_free_app in H.
  by apply andb_true_iff in H as [H _].
Qed.

Lemma nan_free_last_n (c : nat) (l : list Real) :
  nan_free l = true -> nan_free (last_n c l) = true.
Proof.
  intros H. unfold last_n.
  rewrite <- (take_drop (length l - c) l), nan_free_app in H.
  by apply andb_true_iff in H as [_ H].
Qed.

Lemma maximal_maximum_elem (v : Real) (l : list Real) :
  (forall w, w ∈ l -> isnan w = false) -> maximal v l -> maximum v l.
Proof.
  intros Hn [Hin Hmax]. split; [done|]. intros w Hw.
  apply Rle_total; auto.
Qed.

Lemma maximal_maximum (v : Real) (l : list Real) :
  nan_free l = true -> maximal v l -> maximum v l.
Proof. intros Hn. apply maximal_maximum_elem. eauto using nan_free_elem. Qed.

(** With a NaN in the list nothing is its maximum. *)
Lemma maximum_nan_free (v : Real) (l : list Real) :
  maximum v l -> nan_free l = true.
Proof.
  intros [_ Hle]. apply forallb_forall. intros w Hw%list_elem_of_In.
  apply Hle, Rle_key in Hw as (Hw & _). by rewrite Hw.
Qed.

(** ** The invariant is established by the constructor and kept by [push] *)

Section Reachable.

Context (cap : Z) (def : Real) (Hcap : 1 <= cap).
Implicit Types (h xs : list Real) (d : Diffs) (x v w : Real).

Lemma Inv_init : Inv cap def [] (mkDiffs [] cap def 0%nat 0%nat).
Proof using Hcap. split; cbn; try done; try lia; intros; simplify_eq; lia. Qed.

Lemma Inv_filling_elems h d :
  Inv cap def h d -> Z.of_nat (length h) <= cap -> elems d = h.
Proof using Hcap.
  intros I Hh. pose proof (inv_window I) as W.
  unfold window in W. rewrite (inv_pos_fill I Hh) in W.
  rewrite drop_all, firstn_all, last_n_short in W by lia. done.
Qed.

Lemma Inv_full_length h d :
  Inv cap def h d -> cap <= Z.of_nat (length h) ->
  Z.of_nat (length (elems d)) = cap.
Proof using Hcap. intros I Hh. rewrite (inv_len I). lia. Qed.

Lemma Inv_writeCursor h d :
  Inv cap def h d -> cap <= Z.of_nat (length h) ->
  (writeCursor d < length (elems d))%nat.
Proof using Hcap.
  intros I Hh. pose proof (Inv_full_length h d I Hh).
  pose proof (inv_pos_le I). unfold writeCursor. case_decide; lia.
Qed.

Lemma Inv_elems_history h d w : Inv cap def h d -> w ∈ elems d -> w ∈ h.
Proof using Hcap.
  intros I Hw%(elem_of_rotate _ (_pos d)). fold (window d) in Hw.
  rewrite (inv_window I) in Hw. unfold last_n in Hw.
  rewrite <- (take_drop (length h - Z.to_nat cap) h). apply elem_of_app. auto.
Qed.

(** In every state reached by at least one push the max cursor is on a
    maximal element of the buffer, a maximum when no NaN was pushed. *)
Lemma Inv_cursor h d :
  Inv cap def h d -> h <> [] ->
  exists v, elems d !! _maxpos d = Some v /\ maximal v (elems d) /\
            (nan_free h = true -> maximum v (elems d)).
Proof using Hcap.
  intros I Hne. destruct (inv_max I Hne) as (v & Hv & Hmax).
  assert (maximal v (elems d)) as M.
  { split; [by eapply list_elem_of_lookup_2|done]. }
  exists v. repeat split; try done; try apply M.
  intros Hn. apply maximal_maximum_elem; [|done].
  intros w Hw. eapply nan_free_elem; [done|]. by eapply Inv_elems_history.
Qed.

(** *** The filling branch (lines 222-232) *)

Lemma push_filling_Inv h d x :
  Inv cap def h d -> Z.of_nat (length h) < cap ->
  exists mp',
    push x d = Some (tt, mkDiffs (elems d ++ [x]) (_maxsize d) (_def d)
                          (S (length (elems d))) mp') /\
    (forall v, elems d !! _maxpos d = Some v -> Rlt v x = false ->
               mp' = _maxpos d) /\
    Inv cap def (h ++ [x]) (mkDiffs (elems d ++ [x]) (_maxsize d) (_def d)
                              (S (length (elems d))) mp').
Proof using Hcap.
  intros I Hh.
  pose proof (Inv_filling_elems h d I ltac:(lia)) as El.
  pose proof (inv_maxsize I) as Hms. pose proof (inv_def I) as Hdf.
  rewrite push_filling by (rewrite El; lia).
  destruct d as [l ms df p mp]; cbn in *; subst l ms df.
  destruct h as [|y h].
  - (* first push: [_maxpos = begin()] *)
    exists 0%nat. split; [done|]. split; [done|].
    split; cbn [elems _maxsize _def _pos _maxpos]; try done.
    + cbn. lia.
    + rewrite last_n_short by (cbn; lia). done.
    + intros _. exists x. split; [done|].
      intros w ->%list_elem_of_singleton. apply Rlt_irrefl.
    + intros; lia.
  - destruct (inv_max I) as (v & Hv & Hmax); [done|]. cbn in Hv, Hmax.
    pose proof (lookup_lt_Some _ _ _ Hv) as Hlt.
    rewrite (lookup_app_l_Some _ [x] _ _ Hv).
    eexists. split; [done|]. split.
    { intros v' Hv' Hx. simplify_eq. by rewrite Hx. }
    split; cbn [elems _maxsize _def _pos _maxpos]; try done.
    + rewrite !length_app. cbn in *. lia.
    + rewrite length_app. cbn. lia.
    + rewrite length_app. cbn. lia.
    + lia.
    + unfold window. cbn [elems _pos].
      rewrite drop_ge, take_ge, last_n_short; try done;
        rewrite length_app; cbn in *; lia.
    + intros _. destruct (Rlt v x) eqn:Hx.
      * (* the new sample compares greater: [_maxpos = end() - 1] *)
        exists x. split; [by rewrite lookup_app_r, Nat.sub_diag|].
        intros w [Hw| ->%list_elem_of_singleton]%elem_of_app;
          eauto with real_order.
      * exists v. split; [by apply lookup_app_l_Some|].
        intros w [Hw| ->%list_elem_of_singleton]%elem_of_app; auto.
    + intros _ v' j w Hv' Hj Hjw. destruct (Rlt v x) eqn:Hx; cbn iota in *.
      * rewrite lookup_app_r, Nat.sub_diag in Hv' by done.
        cbn in Hv'. simplify_eq.
        rewrite lookup_app_l in Hjw by done.
        eapply Rlt_false_le_false; [done|].
        apply Hmax. by eapply list_elem_of_lookup_2.
      * rewrite lookup_app_l in Hv' by done.
        rewrite lookup_app_l in Hjw by lia.
        eapply (inv_first I); cbn; eauto. cbn in Hh. lia.
    + intros v' Hv' Hn. destruct (Rlt v x) eqn:Hx; cbn iota in *.
      * rewrite lookup_app_r, Nat.sub_diag in Hv' by done.
        cbn in Hv'. simplify_eq.
        apply Rlt_not_nan in Hx as [_ Hx]. congruence.
      * rewrite lookup_app_l in Hv' by done.
        eapply (inv_nan I); eauto.
Qed.

(** *** The full branch (lines 233-244) *)

Lemma push_full_Inv h d x :
  Inv cap def h d -> cap <= Z.of_nat (length h) ->
  exists mp',
    push x d = Some (tt, mkDiffs (<[writeCursor d:=x]> (elems d)) (_maxsize d)
                          (_def d) (S (writeCursor d)) mp') /\
    Inv cap def (h ++ [x]) (mkDiffs (<[writeCursor d:=x]> (elems d)) (_maxsize d)
                              (_def d) (S (writeCursor d)) mp').
Proof using Hcap.
  intros I Hh.
  pose proof (Inv_full_length h d I Hh) as Hlen.
  pose proof (Inv_writeCursor h d I Hh) as Hp.
  assert (Hne : h <> []) by (intros ->; cbn in Hh; lia).
  destruct (inv_max I Hne) as (v & Hv & Hmax).
  rewrite push_full by (rewrite (inv_maxsize I); lia).
  fold (writeCursor d). cbv zeta. set (p := writeCursor d) in *.
  rewrite Hv. destruct (decide (p < length (elems d))%nat) as [_|]; [|lia].
  set (l' := <[p:=x]> (elems d)).
  assert (Hl' : length l' = length (elems d)) by apply length_insert.
  (* whatever the new cursor, the rest of the invariant is kept *)
  assert (Hfix : forall mp',
    (exists v', l' !! mp' = Some v' /\ (forall w, w ∈ l' -> Rlt v' w = false) /\
                (isnan v' = true -> mp' = 0%nat)) ->
    Inv cap def (h ++ [x]) (mkDiffs l' (_maxsize d) (_def d) (S p) mp')).
  { intros mp' (v' & Hv' & Hmax' & Hnan').
    split; cbn [elems _maxsize _def _pos _maxpos].
    - apply (inv_maxsize I).
    - apply (inv_def I).
    - rewrite Hl', length_app. cbn. lia.
    - lia.
    - rewrite length_app. cbn. lia.
    - lia.
    - unfold window, l'. cbn [elems _pos]. rewrite rotate_insert by done.
      rewrite last_n_snoc_full by lia.
      rewrite <- (inv_window I).
      by rewrite (window_writeCursor d (inv_pos_le I)).
    - intros _. eauto.
    - rewrite length_app. cbn. lia.
    - intros v'' Hv'' Hn. simplify_eq. auto. }
  case_decide as Hmp.
  - (* the maximum is overwritten: rescan *)
    eexists. split; [done|]. apply Hfix.
    apply max_element_range_spec. intros E. rewrite E in Hl'. cbn in Hl'. lia.
  - eexists. split; [done|]. apply Hfix.
    destruct (Rlt v x) eqn:Hx.
    + exists x. split; [by apply list_lookup_insert_eq|]. split.
      * intros w [->|Hw]%elem_of_insert_inv; eauto with real_order.
      * intros Hn. apply Rlt_not_nan in Hx as [_ Hx]. congruence.
    + exists v. split; [by unfold l'; rewrite list_lookup_insert_ne|]. split.
      * intros w [->|Hw]%elem_of_insert_inv; auto.
      * by apply (inv_nan I).
Qed.

(** Every [push] on a monitor of capacity at least 1 succeeds. *)
Lemma push_Inv h d x :
  Inv cap def h d ->
  exists d', push x d = Some (tt, d') /\ Inv cap def (h ++ [x]) d'.
Proof using Hcap.
  intros I. destruct (Z.lt_ge_cases (Z.of_nat (length h)) cap) as [Hh|Hh].
  - destruct (push_filling_Inv h d x I Hh) as (mp' & E & _ & I'). eauto.
  - destruct (push_full_Inv h d x I Hh) as (mp' & E & I'). eauto.
Qed.

Lemma pushes_Inv xs h d :
  Inv cap def h d ->
  exists d', pushes xs d = Some (tt, d') /\ Inv cap def (h ++ xs) d'.
Proof using Hcap.
  revert h d. induction xs as [|x xs IH]; intros h d I.
  - exists d. rewrite app_nil_r. done.
  - destruct (push_Inv h d x I) as (d1 & E1 & I1).
    destruct (IH _ _ I1) as (d2 & E2 & I2).
    exists d2. rewrite <- app_assoc in I2. split; [|done].
    cbn [pushes]. unfold mbind, M_bind. by rewrite E1.
Qed.

(** What [maxDiff] reports in a reachable state. *)
Lemma maxDiff_Inv h d :
  Inv cap def h d ->
  (Z.of_nat (length h) < cap -> maxDiff d = Some (def, d)) /\
  (cap <= Z.of_nat (length h) ->
     exists v, maxDiff d = Some (v, d) /\ elems d !! _maxpos d = Some v /\
               maximal v (last_n (Z.to_nat cap) h)).
Proof using Hcap.
  intros I. pose proof (inv_len I) as Hlen.
  pose proof (inv_maxsize I) as Hms. split; intros Hh.
  - rewrite maxDiff_filling by lia. by rewrite (inv_def I).
  - assert (Hne : h <> []) by (intros ->; cbn in Hh; lia).
    destruct (inv_max I Hne) as (v & Hv & Hmax).
    exists v. rewrite maxDiff_full, Hv by lia. split; [done|]. split; [done|].
    rewrite <- (inv_window I). unfold window, maximal.
    split.
    + apply elem_of_rotate. by eapply list_elem_of_lookup_2.
    + intros w Hw%elem_of_rotate. auto.
Qed.

(** *** Arbitrary clients *)

Lemma do_call_Inv h d (c : call) :
  Inv cap def h d ->
  exists a d' h', do_call c d = Some (a, d') /\ Inv cap def h' d'.
Proof using Hcap.
  intros I. destruct c as [x| |]; cbn [do_call]; unfold mbind, M_bind.
  - destruct (push_Inv h d x I) as (d' & -> & I'). cbn. eauto.
  - destruct (maxDiff_Inv h d I) as [Hfill Hfull].
    destruct (Z.lt_ge_cases (Z.of_nat (length h)) cap) as [Hh|Hh].
    + rewrite (Hfill Hh). cbn. eauto.
    + destruct (Hfull Hh) as (v & -> & _). cbn. eauto.
  - cbn. eauto.
Qed.

Lemma run_Inv (cs : list call) h d :
  Inv cap def h d ->
  exists r d', run cs d = Some (r, d') /\ length r = length cs.
Proof using Hcap.
  revert h d. induction cs as [|c cs IH]; intros h d I.
  - exists [], d. done.
  - destruct (do_call_Inv h d c I) as (a & d1 & h1 & E1 & I1).
    destruct (IH _ _ I1) as (r & d2 & E2 & Hr).
    exists (a :: r), d2. cbn [run]. unfold mbind, M_bind. rewrite E1, E2.
    cbn. by rewrite Hr.
Qed.

End Reachable.

(** ** The constructor *)

Lemma Diffs_ctor_ok (cap : Z) (def : Real) (d0 : Diffs) :
  in_long cap -> 1 <= cap -> Diffs_ctor cap def = inr d0 ->
  d0 = mkDiffs [] cap def 0%nat 0%nat.
Proof.
  unfold in_long, LONG_MIN, LONG_MAX, Diffs_ctor, reserve, size_t_of_long, SIZE_MAX.
  intros Hl Hc. rewrite Z.mod_small by lia.
  destruct (vector_max_size <? cap); intros E; by simplify_eq.
Qed.

Lemma reachable_Inv (cap : Z) (def : Real) (d0 : Diffs) (xs : list Real) :
  in_long cap -> 1 <= cap -> Diffs_ctor cap def = inr d0 ->
  exists d, pushes xs d0 = Some (tt, d) /\ Inv cap def xs d.
Proof.
  intros Hl Hc ->%Diffs_ctor_ok; [|done..].
  apply (pushes_Inv cap def Hc xs []). by apply Inv_init.
Qed.

(** ** What the methods leave alone *)

Lemma maxDiff_state (d d' : Diffs) (v : Real) :
  maxDiff d = Some (v, d') -> d' = d.
Proof.
  destruct (Z.lt_ge_cases (Z.of_nat (length (elems d))) (_maxsize d)).
  - rewrite maxDiff_filling by done. intros E. by simplify_eq.
  - rewrite maxDiff_full by done.
    destruct (elems d !! _maxpos d); intros E; by simplify_eq/=.
Qed.

Lemma push_frame (x : Real) (d d' : Diffs) :
  push x d = Some (tt, d') ->
  _maxsize d' = _maxsize d /\ _def d' = _def d.
Proof.
  destruct (Z.lt_ge_cases (Z.of_nat (length (elems d))) (_maxsize d)).
  - rewrite push_filling by done.
    repeat case_match; intros E; by simplify_eq.
  - rewrite push_full by done. cbv zeta.
    repeat case_match; intros E; by simplify_eq.
Qed.

Lemma do_call_frame (c : call) (d d' : Diffs) (a : answer) :
  do_call c d = Some (a, d') ->
  _maxsize d' = _maxsize d /\ _def d' = _def d.
Proof.
  destruct c as [x| |]; cbn [do_call]; unfold mbind, M_bind, mret, M_ret.
  - destruct (push x d) as [[[] d1]|] eqn:E; [|done].
    intros E'. simplify_eq. by apply push_frame in E.
  - destruct (maxDiff d) as [[v d1]|] eqn:E; [|done].
    intros E'. simplify_eq. by apply maxDiff_state in E as ->.
  - unfold maxSize, get_maxsize. intros E. by simplify_eq.
Qed.

Lemma run_frame (cs : list call) (d d' : Diffs) (r : list answer) :
  run cs d = Some (r, d') ->
  _maxsize d' = _maxsize d /\ _def d' = _def d.
Proof.
  revert d r. induction cs as [|c cs IH]; intros d r.
  - cbn. unfold mret, M_ret. intros E. by simplify_eq.
  - cbn [run]. unfold mbind, M_bind.
    destruct (do_call c d) as [[a d1]|] eqn:E1; [|done].
    destruct (run cs d1) as [[r1 d2]|] eqn:E2; [|done].
    unfold mret, M_ret. intros E. simplify_eq.
    apply do_call_frame in E1 as [A B]. apply IH in E2 as [C D].
    split; congruence.
Qed.

Lemma run_MaxDiff_repeat (n : nat) (d : Diffs) (v : Real) :
  maxDiff d = Some (v, d) ->
  run (replicate n MaxDiff) d = Some (replicate n (Value v), d).
Proof.
  intros E. induction n as [|n IH]; [done|].
  cbn [replicate run do_call]. unfold mbind, M_bind, mret, M_ret.
  rewrite E. cbn. by rewrite IH.
Qed.

(** * The claims *)

(** C1. Sliding-window correctness: for a monitor constructed with capacity
    [cap >= 1], and pushes [xs] none of which is NaN, after the [k]-th push
    for every [k] beyond [cap], [maxDiff()] returns a value of the last
    [cap] pushes that every one of them is less than or equal to: their
    maximum. *)
Theorem maxDiff_sliding_window
    (cap : Z) (def : Real) (d0 : Diffs) (xs : list Real) (k : nat) :
  in_long cap -> 1 <= cap -> Diffs_ctor cap def = inr d0 ->
  nan_free xs = true ->
  cap < Z.of_nat k -> (k <= length xs)%nat ->
  exists d v,
    pushes (take k xs) d0 = Some (tt, d) /\
    maxDiff d = Some (v, d) /\
    maximum v (last_n (Z.to_nat cap) (take k xs)).
Proof.
  intros Hl Hc Hd Hn Hk Hkx.
  destruct (reachable_Inv cap def d0 (take k xs) Hl Hc Hd) as (d & E & I).
  destruct (maxDiff_Inv cap def Hc _ d I) as [_ Hfull].
  destruct Hfull as (v & Ev & _ & Hmax); [rewrite length_take; lia|].
  exists d, v. repeat split; try done; try apply Hmax.
  apply maximal_maximum; [|done].
  by apply nan_free_last_n, nan_free_take.
Qed.

Lemma maxDiff_sliding_window_witness :
  exists d v,
    pushes (take 4 (map RealZ [5; 2; 9; 1; 1])) (mkDiffs [] 3 (RealZ (-1)) 0 0)
      = Some (tt, d) /\
    maxDiff d = Some (v, d) /\
    maximum v (last_n 3 (take 4 (map RealZ [5; 2; 9; 1; 1]))).
Proof.
  apply (maxDiff_sliding_window 3 (RealZ (-1)) _ (map RealZ [5; 2; 9; 1; 1]) 4).
  - unfold in_long, LONG_MIN, LONG_MAX. lia.
  - lia.
  - reflexivity.
  - reflexivity.
  - lia.
  - simpl. lia.
Defined.

(** C2, as the code has it.  For capacity [cap >= 1] and any [def],
    [maxDiff()] returns [def] on the fresh monitor and after each of the
    first [cap - 1] pushes; after the [cap]-th push it returns one of
    exactly those [cap] values, none of which compares greater, and, when
    none of them is NaN, every one of which is less than or equal to it:
    their maximum. *)
Theorem maxDiff_fill (cap : Z) (def : Real) (d0 : Diffs) (xs : list Real) :
  in_long cap -> 1 <= cap -> Diffs_ctor cap def = inr d0 ->
  Z.of_nat (length xs) = cap ->
  maxDiff d0 = Some (def, d0) /\
  (forall k : nat, Z.of_nat k < cap ->
     exists d, pushes (take k xs) d0 = Some (tt, d) /\
               maxDiff d = Some (def, d)) /\
  (exists d v, pushes xs d0 = Some (tt, d) /\
               maxDiff d = Some (v, d) /\
               maximal v xs /\
               (nan_free xs = true -> maximum v xs)).
Proof.
  intros Hl Hc Hd Hx.
  assert (Hfill : forall k : nat, Z.of_nat k < cap ->
     exists d, pushes (take k xs) d0 = Some (tt, d) /\
               maxDiff d = Some (def, d)).
  { intros k Hk.
    destruct (reachable_Inv cap def d0 (take k xs) Hl Hc Hd) as (d & E & I).
    destruct (maxDiff_Inv cap def Hc _ d I) as [Hfill _].
    exists d. split; [done|]. apply Hfill. rewrite length_take. lia. }
  split; [|split; [done|]].
  - destruct (Hfill 0%nat) as (d & E & Ed); [lia|].
    rewrite take_0 in E. cbn in E. unfold mret, M_ret in E. by simplify_eq.
  - destruct (reachable_Inv cap def d0 xs Hl Hc Hd) as (d & E & I).
    destruct (maxDiff_Inv cap def Hc _ d I) as [_ Hfull].
    destruct Hfull as (v & Ev & _ & Hmax); [lia|].
    rewrite last_n_short in Hmax by lia.
    exists d, v. repeat split; try done; try apply Hmax.
    intros Hn. by apply maximal_maximum.
Qed.

Lemma maxDiff_fill_witness :
  maxDiff (mkDiffs [] 2 (RealZ 0) 0 0) = Some (RealZ 0, mkDiffs [] 2 (RealZ 0) 0 0) /\
  (forall k : nat, Z.of_nat k < 2 ->
     exists d, pushes (take k (map RealZ [3; 7])) (mkDiffs [] 2 (RealZ 0) 0 0)
                 = Some (tt, d) /\
               maxDiff d = Some (RealZ 0, d)) /\
  (exists d v, pushes (map RealZ [3; 7]) (mkDiffs [] 2 (RealZ 0) 0 0)
                 = Some (tt, d) /\
               maxDiff d = Some (v, d) /\
               maximal v (map RealZ [3; 7]) /\
               (nan_free (map RealZ [3; 7]) = true ->
                maximum v (map RealZ [3; 7]))).
Proof.
  apply (maxDiff_fill 2 (RealZ 0) _ (map RealZ [3; 7])).
  - unfold in_long, LONG_MIN, LONG_MAX. lia.
  - lia.
  - reflexivity.
  - reflexivity.
Defined.

(** C2 as stated fails: after the pushes NaN, 1 into a monitor of capacity
    2, [maxDiff()] returns the NaN, which is not the maximum of the two
    pushed values (1 is not less than or equal to it). *)
Lemma maxDiff_fill_nan_first :
  monitor_trace 2 (RealZ 0) [NaN; RealZ 1] = Some [RealZ 0; NaN] /\
  ~ maximum NaN [NaN; RealZ 1].
Proof.
  split; [reflexivity|]. intros M%maximum_nan_free. discriminate M.
Qed.

(** C3, as the code has it.  After any sequence of pushes into a monitor
    constructed with capacity [cap >= 1]: the history length is between 0
    and [cap]; the buffer read from the write position is the last [cap]
    pushes; once a sample was pushed, the max cursor is on a stored element
    that none compares greater than, the largest one when no NaN was
    pushed.  While the length is below [cap], the buffer is the pushes in
    order, no slot before the cursor holds a value that the one under the
    cursor is less than or equal to (the earliest largest wins), and pushing
    a value equal to it leaves the cursor in place.  Once the length equals
    [cap], every push succeeds, overwrites exactly the slot at the write
    cursor, advances the write cursor by one modulo [cap], keeps the length,
    and leaves the cursor on such an element of the full window. *)
Theorem push_invariants (cap : Z) (def : Real) (d0 : Diffs) (xs : list Real) :
  in_long cap -> 1 <= cap -> Diffs_ctor cap def = inr d0 ->
  exists d,
    pushes xs d0 = Some (tt, d) /\
    0 <= Z.of_nat (length (elems d)) <= cap /\
    window d = last_n (Z.to_nat cap) xs /\
    (xs <> [] ->
       exists v, elems d !! _maxpos d = Some v /\ maximal v (elems d) /\
                 (nan_free xs = true -> maximum v (elems d))) /\
    (Z.of_nat (length (elems d)) < cap ->
       elems d = xs /\
       (forall v j w, elems d !! _maxpos d = Some v -> (j < _maxpos d)%nat ->
                      elems d !! j = Some w -> SFleb v w = false) /\
       (forall x v, elems d !! _maxpos d = Some v -> SFeqb x v = true ->
                    exists d', push x d = Some (tt, d') /\
                               _maxpos d' = _maxpos d)) /\
    (Z.of_nat (length (elems d)) = cap ->
       forall x, exists d',
         push x d = Some (tt, d') /\
         (writeCursor d < length (elems d))%nat /\
         elems d' = <[writeCursor d:=x]> (elems d) /\
         Z.of_nat (writeCursor d') = (Z.of_nat (writeCursor d) + 1) mod cap /\
         Z.of_nat (length (elems d')) = cap /\
         exists v', elems d' !! _maxpos d' = Some v' /\
                    maximal v' (elems d') /\
                    (nan_free (xs ++ [x]) = true -> maximum v' (elems d'))).
Proof.
  intros Hl Hc Hd.
  destruct (reachable_Inv cap def d0 xs Hl Hc Hd) as (d & E & I).
  pose proof (inv_len I) as Hlen.
  exists d. split; [done|]. split; [lia|]. split; [apply (inv_window I)|].
  split; [by apply (Inv_cursor cap def Hc xs d I)|]. split.
  - intros Hfill. assert (Hx : Z.of_nat (length xs) < cap) by lia.
    split; [apply (Inv_filling_elems cap def Hc xs d I); lia|].
    split; [apply (inv_first I); lia|].
    intros x v Hv Heq.
    destruct (push_filling_Inv cap def Hc xs d x I Hx) as (mp' & Ep & Hkeep & _).
    eexists. split; [done|]. cbn. eapply Hkeep; eauto using Req_not_lt.
  - intros Hfull x. assert (Hx : cap <= Z.of_nat (length xs)) by lia.
    destruct (push_full_Inv cap def Hc xs d x I Hx) as (mp' & Ep & I').
    pose proof (Inv_writeCursor cap def Hc xs d I Hx) as Hw.
    eexists. split; [done|]. split; [done|]. split; [done|].
    cbn [elems]. rewrite length_insert. split; [|split; [done|]].
    + unfold writeCursor at 1. cbn [elems _pos]. rewrite length_insert.
      case_decide as Ew.
      * rewrite <- Ew, Nat2Z.inj_succ in Hfull.
        replace (Z.of_nat (writeCursor d) + 1) with cap by lia.
        by rewrite Z_mod_same_full.
      * rewrite Z.mod_small; lia.
    + apply (Inv_cursor cap def Hc _ _ I'). by destruct xs.
Qed.

Lemma push_invariants_witness :
  in_long 3 /\ 1 <= 3 /\
  exists d, pushes (map RealZ [5; 2; 9; 1]) (mkDiffs [] 3 (RealZ (-1)) 0 0)
              = Some (tt, d) /\
            0 <= Z.of_nat (length (elems d)) <= 3 /\
            window d = map RealZ [2; 9; 1].
Proof.
  assert (L : in_long 3) by (unfold in_long, LONG_MIN, LONG_MAX; lia).
  assert (C : 1 <= 3) by lia.
  split; [exact L|]. split; [exact C|].
  destruct (push_invariants 3 (RealZ (-1)) (mkDiffs [] 3 (RealZ (-1)) 0 0)
              (map RealZ [5; 2; 9; 1]) L C eq_refl) as (d & E & B & W & _).
  exists d. split; [exact E|]. split; [exact B|exact W].
Defined.

(** C3 as stated fails: after the pushes NaN, 1 the max cursor is on the
    NaN, both while the monitor is filling (capacity 3) and when it is full
    (capacity 2); the NaN is not the largest stored element, 1 is not less
    than or equal to it. *)
Lemma max_cursor_on_nan :
  pushes [NaN; RealZ 1] (mkDiffs [] 3 (RealZ 0) 0 0)
    = Some (tt, mkDiffs [NaN; RealZ 1] 3 (RealZ 0) 2 0) /\
  pushes [NaN; RealZ 1] (mkDiffs [] 2 (RealZ 0) 0 0)
    = Some (tt, mkDiffs [NaN; RealZ 1] 2 (RealZ 0) 2 0) /\
  [NaN; RealZ 1] !! 0%nat = Some NaN /\
  ~ maximum NaN [NaN; RealZ 1].
Proof.
  repeat split. intros M%maximum_nan_free. discriminate M.
Qed.

(** C4, as the code has it.  The constructor checks nothing.  A capacity of
    0 constructs an empty monitor of capacity 0 without any error; a
    negative capacity becomes a [size_t] above [max_size()], and the
    [reserve] call throws [std::length_error] out of the constructor, so no
    monitor results. *)
Theorem Diffs_ctor_nonpositive (maxsize : Z) (def : Real) :
  in_long maxsize -> maxsize < 1 ->
  (maxsize = 0 -> Diffs_ctor maxsize def = inr (mkDiffs [] 0 def 0 0)) /\
  (maxsize < 0 -> Diffs_ctor maxsize def = inl length_error).
Proof.
  unfold in_long, LONG_MIN, LONG_MAX. intros Hl Hc. split.
  - intros ->. reflexivity.
  - intros Hn. unfold Diffs_ctor, reserve, size_t_of_long, SIZE_MAX.
    assert (E : maxsize mod (2 ^ 64 - 1 + 1) = maxsize + 2 ^ 64).
    { symmetry. apply (Z.mod_unique _ _ (-1)); lia. }
    rewrite E. unfold vector_max_size, LONG_MAX.
    destruct (Z.ltb_spec ((2 ^ 63 - 1) / 8) (maxsize + 2 ^ 64)) as [|Hge]; [done|].
    assert ((2 ^ 63 - 1) / 8 < 2 ^ 63) by (apply Z.div_lt_upper_bound; lia).
    lia.
Qed.

Lemma Diffs_ctor_nonpositive_witness :
  in_long (-1) /\ -1 < 1 /\
  Diffs_ctor (-1) (RealZ 0) = inl length_error.
Proof.
  assert (L : in_long (-1)) by (unfold in_long, LONG_MIN, LONG_MAX; lia).
  assert (C : -1 < 1) by lia.
  split; [exact L|]. split; [exact C|].
  apply (Diffs_ctor_nonpositive (-1) (RealZ 0) L C). lia.
Defined.

(** C4 as stated fails: constructing with capacity 0 is not an error. *)
Lemma Diffs_ctor_zero_no_error :
  ~ (exists e : exception, Diffs_ctor 0 (RealZ 0) = inl e).
Proof. intros [e E]. discriminate E. Qed.

(** C5. Totality: on a monitor constructed with capacity [cap >= 1], every
    sequence of [push] and [maxDiff] (and [maxSize]) calls, with arbitrary
    arguments (NaN and infinities included), runs to the end with one answer
    per call: no access to the buffer is ever out of bounds. *)
Theorem calls_total (cap : Z) (def : Real) (d0 : Diffs) (cs : list call) :
  in_long cap -> 1 <= cap -> Diffs_ctor cap def = inr d0 ->
  exists r d, run cs d0 = Some (r, d) /\ length r = length cs.
Proof.
  intros Hl Hc ->%Diffs_ctor_ok; [|done..].
  apply (run_Inv cap def Hc cs []). by apply Inv_init.
Qed.

Lemma calls_total_witness :
  exists r d,
    run [MaxDiff; Push NaN; Push (S754_infinity false); MaxDiff; Push NaN; MaxDiff]
        (mkDiffs [] 2 NaN 0 0) = Some (r, d) /\
    length r = 6%nat.
Proof.
  apply (calls_total 2 NaN (mkDiffs [] 2 NaN 0 0)
           [MaxDiff; Push NaN; Push (S754_infinity false); MaxDiff; Push NaN; MaxDiff]).
  - unfold in_long, LONG_MIN, LONG_MAX. lia.
  - lia.
  - reflexivity.
Defined.

(** C6, as the code has it: capacity 3, default -1, pushes 5, 2, 9, 1, 1
    give the [maxDiff()] values -1, -1, 9, 9, 9. *)
Theorem trace_5_2_9_1_1 :
  monitor_trace 3 (RealZ (-1)) (map RealZ [5; 2; 9; 1; 1]) =
  Some (map RealZ [-1; -1; 9; 9; 9]).
Proof. reflexivity. Qed.

(** C6 as stated fails: the fifth value is not 2. *)
Lemma trace_5_2_9_1_1_not_2 :
  monitor_trace 3 (RealZ (-1)) (map RealZ [5; 2; 9; 1; 1]) <>
  Some (map RealZ [-1; -1; 9; 9; 2]).
Proof. vm_compute. discriminate. Qed.

(** C7, as the code has it: capacity 2, any default [d], pushes 4, 4, 4, 4
    give the [maxDiff()] values [d], 4, 4, 4. *)
Theorem trace_4_4_4_4 (d : Real) :
  monitor_trace 2 d (map RealZ [4; 4; 4; 4]) =
  Some [d; RealZ 4; RealZ 4; RealZ 4].
Proof. reflexivity. Qed.

(** C7 as stated fails: with default 0 the second value is 4, not 0. *)
Lemma trace_4_4_4_4_not_d_d :
  monitor_trace 2 (RealZ 0) (map RealZ [4; 4; 4; 4]) <>
  Some [RealZ 0; RealZ 0; RealZ 4; RealZ 4].
Proof. vm_compute. discriminate. Qed.

(** C8, as the code has it.  Every comparison with a NaN is false, so a NaN
    never wins a comparison; but a sample the cursor reaches without one is
    kept while nothing compares greater.  [maxDiff()] of a full monitor
    reports a NaN only when the max cursor is on the first slot of the
    buffer, where the first push and every rescan start. *)
Theorem nan_reported_only_at_begin
    (cap : Z) (def : Real) (d0 : Diffs) (xs : list Real) :
  in_long cap -> 1 <= cap -> Diffs_ctor cap def = inr d0 ->
  cap <= Z.of_nat (length xs) ->
  (forall y, Rlt y NaN = false /\ Rlt NaN y = false) /\
  exists d v, pushes xs d0 = Some (tt, d) /\
              maxDiff d = Some (v, d) /\
              (isnan v = true -> _maxpos d = 0%nat).
Proof.
  intros Hl Hc Hd Hx. split.
  { intros y. split; [by destruct y as [[]|[]| |[]]|done]. }
  destruct (reachable_Inv cap def d0 xs Hl Hc Hd) as (d & E & I).
  destruct (maxDiff_Inv cap def Hc _ d I) as [_ Hfull].
  destruct (Hfull Hx) as (v & Ev & Hv & _).
  exists d, v. split; [done|]. split; [done|].
  by apply (inv_nan I).
Qed.

Lemma nan_reported_only_at_begin_witness :
  exists d v, pushes [RealZ 1; RealZ 2; NaN; RealZ 3] (mkDiffs [] 2 (RealZ 0) 0 0)
                = Some (tt, d) /\
              maxDiff d = Some (v, d) /\
              (isnan v = true -> _maxpos d = 0%nat).
Proof.
  apply (nan_reported_only_at_begin 2 (RealZ 0) (mkDiffs [] 2 (RealZ 0) 0 0)
           [RealZ 1; RealZ 2; NaN; RealZ 3]).
  - unfold in_long, LONG_MIN, LONG_MAX. lia.
  - lia.
  - reflexivity.
  - simpl. lia.
Defined.

(** C8 as stated fails: pushing 1, 2, NaN, 3 into a monitor of capacity 2
    leaves the window NaN, 3, and [maxDiff()] reports the NaN although it
    is not the only value inserted. *)
Lemma nan_reported_beside_other_sample :
  monitor_trace 2 (RealZ 0) [RealZ 1; RealZ 2; NaN; RealZ 3] =
  Some [RealZ 0; RealZ 2; RealZ 2; NaN].
Proof. reflexivity. Qed.

(** C9. [maxDiff] is a pure query: a call that returns leaves the whole
    state as it was, so any number of calls in a row return the same value;
    and no sequence of [push], [maxDiff] and [maxSize] calls changes
    [_maxsize] or [_def]. *)
Theorem maxDiff_pure
    (d d' : Diffs) (v : Real) (n : nat)
    (cs : list call) (d1 d2 : Diffs) (r : list answer) :
  maxDiff d = Some (v, d') ->
  run cs d1 = Some (r, d2) ->
  d' = d /\
  run (replicate n MaxDiff) d = Some (replicate n (Value v), d) /\
  _maxsize d2 = _maxsize d1 /\ _def d2 = _def d1.
Proof.
  intros E R. pose proof (maxDiff_state _ _ _ E) as ->.
  split; [done|]. split; [by apply run_MaxDiff_repeat|].
  by apply run_frame in R.
Qed.

Lemma maxDiff_pure_witness :
  run (replicate 3 MaxDiff)
      (mkDiffs (map RealZ [1; 2; 9]) 3 (RealZ (-1)) 1 2)
    = Some (replicate 3 (Value (RealZ 9)),
            mkDiffs (map RealZ [1; 2; 9]) 3 (RealZ (-1)) 1 2) /\
  _maxsize (mkDiffs (map RealZ [1; 1; 9]) 3 (RealZ (-1)) 2 2) = 3.
Proof.
  destruct (maxDiff_pure
              (mkDiffs (map RealZ [1; 2; 9]) 3 (RealZ (-1)) 1 2)
              (mkDiffs (map RealZ [1; 2; 9]) 3 (RealZ (-1)) 1 2)
              (RealZ 9) 3
              [Push (RealZ 1); MaxDiff]
              (mkDiffs (map RealZ [1; 2; 9]) 3 (RealZ (-1)) 1 2)
              (mkDiffs (map RealZ [1; 1; 9]) 3 (RealZ (-1)) 2 2)
              [Done; Value (RealZ 9)]
              eq_refl eq_refl) as (_ & R & S & _).
  split; [exact R|exact S].
Defined.

(** C10. A capacity of 0: the constructor completes without an error, and
    the first call of [maxDiff] or of [push] on the monitor it built is out
    of bounds: [maxDiff] dereferences [_maxpos] in an empty vector, [push]
    takes the full-window branch and assigns through [_pos] past the end. *)
Theorem capacity_zero_out_of_bounds (def x : Real) :
  Diffs_ctor 0 def = inr (mkDiffs [] 0 def 0 0) /\
  maxDiff (mkDiffs [] 0 def 0 0) = None /\
  deref (_maxpos (mkDiffs [] 0 def 0 0)) (mkDiffs [] 0 def 0 0) = None /\
  push x (mkDiffs [] 0 def 0 0) = None /\
  assign (writeCursor (mkDiffs [] 0 def 0 0)) x (mkDiffs [] 0 def 0 0) = None.
Proof. repeat split. Qed.

(** * Further properties of util.h *)

(** ** [abs] *)

Lemma SFopp_involutive (t : Real) : SFopp (SFopp t) = t.
Proof. by destruct t as [[]|[]| |[] m e]. Qed.

Lemma Rlt_zero_opp (t : Real) :
  Rlt t (S754_zero false) = true -> Rlt (SFopp t) (S754_zero false) = false.
Proof. by destruct t as [[]|[]| |[] m e]. Qed.

(** X1.  [abs] at [Real] always returns; the result is never below zero, and
    taking [abs] again changes nothing. *)
Theorem abs_Real_nonneg_idempotent (t : Real) :
  exists r : Real,
    abs t = Some r /\
    Rlt r (S754_zero false) = false /\
    abs r = Some r.
Proof.
  unfold abs. cbn [lt_zero negate Signed_Real].
  destruct (Rlt t (S754_zero false)) eqn:E.
  - exists (SFopp t). split; [done|].
    pose proof (Rlt_zero_opp t E) as E'. split; [done|]. by rewrite E'.
  - exists t. split; [done|]. split; [done|]. by rewrite E.
Qed.


(** X3.  [abs] of [t] and of [-t] are numerically equal ([==]) for every [t]
    that is not NaN, and NaN is returned as it is. *)
Theorem abs_Real_opp (t : Real) :
  exists r r' : Real,
    abs t = Some r /\ abs (SFopp t) = Some r' /\
    (isnan t = false -> SFeqb r r' = true) /\
    (isnan t = true -> r = NaN /\ r' = NaN).
Proof.
  destruct t as [[]|[]| |[] m e]; cbn; eexists _, _;
    (split; [done|]); (split; [done|]); split; intros H; try done.
  all: cbn; unfold SFeqb, SFcompare; cbn;
    by rewrite ?Z.compare_refl, ?Pos.compare_cont_refl.
Qed.

(** X4.  [abs] at [long]: undefined (the negation overflows) exactly for
    [LONG_MIN]; for every other [long] it returns the mathematical absolute
    value, which is a non-negative [long]. *)
Theorem abs_long_spec (t : Z) :
  in_long t ->
  (abs t = None <-> t = LONG_MIN) /\
  (t <> LONG_MIN -> abs t = Some (Z.abs t) /\ in_long (Z.abs t) /\ 0 <= Z.abs t).
Proof.
  unfold in_long, abs, LONG_MIN, LONG_MAX. cbn [lt_zero negate Signed_long].
  unfold LONG_MIN, LONG_MAX. intros Ht.
  destruct (Z.ltb_spec t 0) as [Hn|Hn].
  - destruct (Z.leb_spec (- 2 ^ 63) (- t)), (Z.leb_spec (- t) (2 ^ 63 - 1)); cbn;
      (split; [split; [intros; first [done|lia] | intros; first [done|lia]]|]);
      intros; try lia; rewrite Z.abs_neq by lia; repeat split; lia.
  - split; [split; [done|lia]|]. intros _.
    rewrite Z.abs_eq by lia. repeat split; lia.
Qed.

Lemma abs_long_spec_witness :
  in_long (-7) /\ abs (-7) = Some 7.
Proof.
  assert (L : in_long (-7)) by (unfold in_long, LONG_MIN, LONG_MAX; lia).
  split; [exact L|].
  destruct (abs_long_spec (-7) L) as [_ H].
  destruct H as [E _]; [unfold LONG_MIN; lia|]. exact E.
Defined.

(** ** [concat] *)

(** The copy loop appends the elements of [l], read by index out of
    [pre ++ l], to [w]; no index is out of range. *)
Lemma copy_loop {T : Type} (l pre w : list T) :
  for_iter (fun i w => x ← (pre ++ l) !! i; Some (w ++ [x]))
           (seq (length pre) (length l)) w = Some (w ++ l).
Proof.
  revert pre w. induction l as [|y l IH]; intros pre w.
  - cbn. by rewrite app_nil_r.
  - cbn [length seq for_iter].
    rewrite list_lookup_middle by done. cbn.
    replace (pre ++ y :: l) with ((pre ++ [y]) ++ l) by (by rewrite <- app_assoc).
    replace (S (length pre)) with (length (pre ++ [y]))
      by (rewrite length_app; cbn; lia).
    rewrite IH. by rewrite <- app_assoc.
Qed.

Lemma copy_range {T : Type} (u w : list T) :
  for_iter (fun i w => x ← u !! i; Some (w ++ [x])) (seq 0 (length u)) w
  = Some (w ++ u).
Proof. exact (copy_loop u [] w). Qed.

(** X5.  [concat(u, v)] returns the elements of [u] followed by those of [v],
    whenever the two sizes together do not exceed [max_size()]: no read is
    out of range and nothing is thrown. *)
Theorem concat_app {T : Type} (max_size : Z) (u v : list T) :
  max_size <= SIZE_MAX ->
  Z.of_nat (length u) + Z.of_nat (length v) <= max_size ->
  concat max_size u v = Returns (u ++ v).
Proof.
  unfold SIZE_MAX. intros Hm Hs. unfold concat, reserve_vector, SIZE_MAX.
  rewrite Z.mod_small by lia.
  destruct (Z.ltb_spec max_size (Z.of_nat (length u) + Z.of_nat (length v)));
    [lia|].
  rewrite (copy_range u []). cbn [app].
  by rewrite (copy_range v u).
Qed.

Lemma concat_app_witness :
  concat (LONG_MAX / 8) (map RealZ [1; 2]) (map RealZ [3])
  = Returns (map RealZ [1; 2; 3]).
Proof.
  apply (concat_app (LONG_MAX / 8) (map RealZ [1; 2]) (map RealZ [3])).
  - unfold LONG_MAX, SIZE_MAX.
    assert ((2 ^ 63 - 1) / 8 < 2 ^ 63) by (apply Z.div_lt_upper_bound; lia). lia.
  - vm_compute. discriminate.
Defined.

(** X6.  When the two sizes together exceed [max_size()], [concat] throws the
    [std::length_error] of [reserve], before it copies anything. *)
Theorem concat_length_error {T : Type} (max_size : Z) (u v : list T) :
  max_size < Z.of_nat (length u) + Z.of_nat (length v) <= SIZE_MAX ->
  concat max_size u v = Throws length_error.
Proof.
  unfold SIZE_MAX. intros Hs. unfold concat, reserve_vector, SIZE_MAX.
  rewrite Z.mod_small by lia.
  by destruct (Z.ltb_spec max_size (Z.of_nat (length u) + Z.of_nat (length v)));
    [|lia].
Qed.

Lemma concat_length_error_witness :
  concat 2 (map RealZ [1; 2]) (map RealZ [3]) = Throws length_error.
Proof.
  apply (concat_length_error 2 (map RealZ [1; 2]) (map RealZ [3])).
  vm_compute. split; [reflexivity|discriminate].
Defined.

(** X7.  Concatenating three vectors in either nesting gives the same vector, and
    an empty vector on either side changes nothing. *)
Theorem concat_assoc_unit {T : Type} (max_size : Z) (u v w : list T) :
  max_size <= SIZE_MAX ->
  Z.of_nat (length u) + Z.of_nat (length v) + Z.of_nat (length w) <= max_size ->
  (exists uv vw, concat max_size u v = Returns uv /\
                 concat max_size v w = Returns vw /\
                 concat max_size uv w = concat max_size u vw /\
                 concat max_size uv w = Returns (u ++ v ++ w)) /\
  concat max_size u [] = Returns u /\
  concat max_size [] u = Returns u.
Proof.
  intros Hm Hs. split; [|split].
  - exists (u ++ v), (v ++ w).
    rewrite !concat_app by (rewrite ?length_app; lia).
    by rewrite <- app_assoc.
  - rewrite concat_app by (cbn; lia). by rewrite app_nil_r.
  - by rewrite concat_app by (cbn; lia).
Qed.

Lemma concat_assoc_unit_witness :
  concat 100 (map RealZ [1; 2]) [] = Returns (map RealZ [1; 2]) /\
  concat 100 [] (map RealZ [1; 2]) = Returns (map RealZ [1; 2]).
Proof.
  refine (proj2 (concat_assoc_unit 100 (map RealZ [1; 2]) (map RealZ [3])
                   (map RealZ [4]) _ _)).
  - vm_compute. discriminate.
  - vm_compute. discriminate.
Defined.

(** ** The stream operators *)

Lemma string_app_assoc (a b c : string) : (a +:+ b) +:+ c = a +:+ (b +:+ c).
Proof.
  induction a as [|ch a IH]; [done|].
  change (String ch ((a +:+ b) +:+ c) = String ch (a +:+ (b +:+ c))).
  by rewrite IH.
Qed.

Lemma string_app_nil_r (a : string) : a +:+ "" = a.
Proof.
  induction a as [|ch a IH]; [done|].
  change (String ch (a +:+ "") = String ch a). by rewrite IH.
Qed.

(** The text the loop writes for the items after the first one. *)
Lemma joined_cons (a : string) (l : list string) :
  joined (a :: l) = a +:+ foldr (fun s acc => ", " +:+ s +:+ acc) "" l.
Proof.
  unfold joined. revert a. induction l as [|b l IH]; intros a.
  - cbn. by rewrite string_app_nil_r.
  - change (String.concat ", " (a :: b :: l))
      with (a +:+ ", " +:+ String.concat ", " (b :: l)).
    by rewrite IH.
Qed.

(** The loop of the three container operators: each item is written by
    [item], after [", "] unless it is the first. *)
Lemma separated_loop {T : Type} (item : T -> ostream -> ostream)
    (show : T -> string) (l pre : list T) (os : ostream) :
  appends item show -> pre <> [] ->
  for_iter (fun it os => e ← (pre ++ l) !! it;
                         Some (item e (put (separator it) os)))
           (seq (length pre) (length l)) os
  = Some (os +:+ foldr (fun s acc => ", " +:+ s +:+ acc) "" (map show l)).
Proof.
  intros Hitem. revert pre os. induction l as [|y l IH]; intros pre os Hpre.
  - cbn. by rewrite string_app_nil_r.
  - cbn [length seq for_iter].
    rewrite list_lookup_middle by done. cbn [mbind option_bind].
    replace (pre ++ y :: l) with ((pre ++ [y]) ++ l) by (by rewrite <- app_assoc).
    replace (S (length pre)) with (length (pre ++ [y]))
      by (rewrite length_app; cbn; lia).
    rewrite IH by (by destruct pre).
    unfold separator. rewrite decide_True by (by destruct pre).
    rewrite Hitem. unfold put. cbn [map foldr].
    by rewrite !string_app_assoc.
Qed.

Lemma separated_range {T : Type} (item : T -> ostream -> ostream)
    (show : T -> string) (x : list T) (os : ostream) :
  appends item show ->
  for_iter (fun it os => e ← x !! it; Some (item e (put (separator it) os)))
           (seq 0 (length x)) os
  = Some (os +:+ joined (map show x)).
Proof.
  intros Hitem. destruct x as [|y x].
  - cbn. by rewrite string_app_nil_r.
  - cbn [length seq for_iter lookup list_lookup]. cbn [mbind option_bind].
    rewrite (separated_loop item show x [y] _ Hitem) by done.
    unfold separator. rewrite decide_False by (intros H; by apply H).
    rewrite Hitem. unfold put. cbn [map]. rewrite joined_cons.
    by rewrite string_app_nil_r, !string_app_assoc.
Qed.

(** X8.  The vector operator writes, after what the stream holds, an opening
    parenthesis, the elements in order with [", "] between them and none
    before the first or after the last, and a closing parenthesis; every
    element read is in range. *)
Theorem print_vector_joined {T : Type} (emit : T -> ostream -> ostream)
    (show : T -> string) (x : list T) (os : ostream) :
  appends emit show ->
  print_vector emit x os = Some (os +:+ "(" +:+ joined (map show x) +:+ ")").
Proof.
  intros He. unfold print_vector.
  rewrite (separated_range emit show x _ He). cbn [mbind option_bind].
  unfold put. by rewrite !string_app_assoc.
Qed.

Lemma print_vector_joined_witness :
  print_vector put ["a"; "bc"; ""] "x = " = Some "x = (a, bc, )".
Proof.
  apply (print_vector_joined put (fun s => s) ["a"; "bc"; ""] "x = ").
  intros e os. reflexivity.
Defined.

(** X9.  The set operator writes the elements, in iteration order, between
    braces with [", "] between them. *)
Theorem print_set_joined {T : Type} (emit : T -> ostream -> ostream)
    (show : T -> string) (x : list T) (os : ostream) :
  appends emit show ->
  print_set emit x os = Some (os +:+ "{" +:+ joined (map show x) +:+ "}").
Proof.
  intros He. unfold print_set.
  rewrite (separated_range emit show x _ He). cbn [mbind option_bind].
  unfold put. by rewrite !string_app_assoc.
Qed.

Lemma print_set_joined_witness :
  print_set put ["a"; "b"] "" = Some "{a, b}".
Proof.
  apply (print_set_joined put (fun s => s) ["a"; "b"] "").
  intros e os. reflexivity.
Defined.

(** X10.  The map operator writes each entry as key, [->], value, the entries in
    iteration order between braces with [", "] between them. *)
Theorem print_map_joined {T1 T2 : Type}
    (emit1 : T1 -> ostream -> ostream) (show1 : T1 -> string)
    (emit2 : T2 -> ostream -> ostream) (show2 : T2 -> string)
    (x : list (T1 * T2)) (os : ostream) :
  appends emit1 show1 -> appends emit2 show2 ->
  print_map emit1 emit2 x os =
  Some (os +:+ "{" +:+
        joined (map (fun e => show1 e.1 +:+ "->" +:+ show2 e.2) x) +:+ "}").
Proof.
  intros H1 H2. unfold print_map.
  rewrite (separated_range
             (fun e os => emit2 e.2 (put "->" (emit1 e.1 os)))
             (fun e => show1 e.1 +:+ "->" +:+ show2 e.2) x).
  - cbn [mbind option_bind]. unfold put. by rewrite !string_app_assoc.
  - intros e os'. rewrite H2, H1. unfold put. by rewrite !string_app_assoc.
Qed.

Lemma print_map_joined_witness :
  print_map put put [("a", "1"); ("b", "2")] "" = Some "{a->1, b->2}".
Proof.
  apply (print_map_joined put (fun s => s) put (fun s => s)
           [("a", "1"); ("b", "2")] "").
  - intros e os. reflexivity.
  - intros e os. reflexivity.
Defined.



(** ** Further properties of [Diffs] *)

Lemma Rle_lt_trans (x y z : Real) :
  SFleb x y = true -> Rlt y z = true -> Rlt x z = true.
Proof.
  rewrite !Rlt_key, Rle_key. unfold key_lt.
  intros (? & ? & ?) (? & ? & ?). repeat split; try done. lia.
Qed.

(** *** Where the samples are stored *)

Section Layout.

Context (cap : Z) (def : Real) (Hcap : 1 <= cap).
Implicit Types (h xs : list Real) (d : Diffs) (x : Real).

Lemma push_pos h d x :
  Inv cap def h d -> pos_after cap h d ->
  exists d', push x d = Some (tt, d') /\ Inv cap def (h ++ [x]) d' /\
             pos_after cap (h ++ [x]) d'.
Proof using Hcap.
  intros I P. unfold pos_after in *. rewrite length_app. cbn [length].
  replace (Z.of_nat (length h + 1) - 1) with (Z.of_nat (length h)) by lia.
  destruct (Z.lt_ge_cases (Z.of_nat (length h)) cap) as [Hh|Hh].
  - destruct (push_filling_Inv cap def Hcap h d x I Hh) as (mp' & E & _ & I').
    eexists. split; [exact E|]. split; [exact I'|]. intros _. cbn [_pos].
    rewrite (Inv_filling_elems cap def Hcap h d I) by lia.
    rewrite Z.mod_small by lia. lia.
  - destruct (push_full_Inv cap def Hcap h d x I Hh) as (mp' & E & I').
    eexists. split; [exact E|]. split; [exact I'|]. intros _. cbn [_pos].
    assert (Hne : h <> []) by (intros ->; cbn in Hh; lia).
    specialize (P Hne).
    pose proof (Inv_full_length cap def Hcap h d I Hh) as Hlen.
    pose proof (Z.div_mod (Z.of_nat (length h) - 1) cap ltac:(lia)) as Hdm.
    pose proof (Z.mod_pos_bound (Z.of_nat (length h) - 1) cap ltac:(lia)) as Hb.
    set (q := (Z.of_nat (length h) - 1) / cap) in *.
    set (r := (Z.of_nat (length h) - 1) mod cap) in *.
    unfold writeCursor. case_decide as Ep.
    + rewrite <- (Z.mod_unique_pos (Z.of_nat (length h)) cap (q + 1) 0); lia.
    + pose proof (inv_pos_le I).
      rewrite <- (Z.mod_unique_pos (Z.of_nat (length h)) cap q (r + 1)); lia.
Qed.

Lemma pushes_pos xs h d :
  Inv cap def h d -> pos_after cap h d ->
  exists d', pushes xs d = Some (tt, d') /\ Inv cap def (h ++ xs) d' /\
             pos_after cap (h ++ xs) d'.
Proof using Hcap.
  revert h d. induction xs as [|x xs IH]; intros h d I P.
  - exists d. rewrite app_nil_r. done.
  - destruct (push_pos h d x I P) as (d1 & E1 & I1 & P1).
    destruct (IH _ _ I1 P1) as (d2 & E2 & I2 & P2).
    exists d2. rewrite <- app_assoc in I2, P2. split; [|done].
    cbn [pushes]. unfold mbind, M_bind. by rewrite E1.
Qed.

Lemma Inv_slot h d (i : nat) :
  Inv cap def h d -> pos_after cap h d ->
  (i < length h)%nat -> Z.of_nat (length h) - cap <= Z.of_nat i ->
  elems d !! slot_of cap i = h !! i.
Proof using Hcap.
  intros I P Hi Hw. unfold slot_of.
  destruct (Z.le_gt_cases (Z.of_nat (length h)) cap) as [Hh|Hh].
  - rewrite (Inv_filling_elems cap def Hcap h d I Hh).
    rewrite Z.mod_small by lia. by rewrite Nat2Z.id.
  - assert (Hne : h <> []) by (intros ->; cbn in Hi; lia).
    specialize (P Hne).
    pose proof (Inv_full_length cap def Hcap h d I ltac:(lia)) as Hlen.
    pose proof (inv_pos_le I) as Hple. pose proof (inv_pos_pos I Hne) as Hp1.
    pose proof (inv_window I) as W. unfold window, last_n in W.
    pose proof (Z.div_mod (Z.of_nat (length h) - 1) cap ltac:(lia)) as Hdm.
    set (q := (Z.of_nat (length h) - 1) / cap) in *.
    set (r := (Z.of_nat (length h) - 1) mod cap) in *.
    set (p := _pos d) in *. set (e := elems d) in *.
    set (j := (i - (length h - Z.to_nat cap))%nat).
    assert (Hj : h !! i = drop (length h - Z.to_nat cap) h !! j).
    { rewrite lookup_drop. f_equal. unfold j. lia. }
    rewrite Hj, <- W.
    destruct (decide (j < length e - p)%nat) as [Hlt|Hge].
    + rewrite lookup_app_l by (rewrite length_drop; lia).
      rewrite lookup_drop.
      rewrite <- (Z.mod_unique_pos (Z.of_nat i) cap (q - 1) (Z.of_nat (p + j)));
        [by rewrite Nat2Z.id| |]; unfold j; lia.
    + rewrite lookup_app_r by (rewrite length_drop; lia).
      rewrite length_drop, lookup_take_lt by (unfold j; lia).
      rewrite <- (Z.mod_unique_pos (Z.of_nat i) cap q
                    (Z.of_nat (j - (length e - p))));
        [by rewrite Nat2Z.id| |]; unfold j; lia.
Qed.

End Layout.

(** X12.  The buffer is circular: in a monitor constructed with capacity
    [cap >= 1], the sample pushed as number [i] (from 0) is in slot
    [i mod cap] for as long as it is one of the last [cap] pushes, and once
    the buffer is full the next push writes slot [n mod cap], [n] being the
    number of pushes so far. *)
Theorem sample_slot
    (cap : Z) (def : Real) (d0 : Diffs) (xs : list Real) (i : nat) :
  in_long cap -> 1 <= cap -> Diffs_ctor cap def = inr d0 ->
  (i < length xs)%nat -> Z.of_nat (length xs) - cap <= Z.of_nat i ->
  exists d, pushes xs d0 = Some (tt, d) /\
            elems d !! slot_of cap i = xs !! i /\
            (cap <= Z.of_nat (length xs) ->
             writeCursor d = slot_of cap (length xs)).
Proof.
  intros Hl Hc ->%Diffs_ctor_ok Hi Hw; [|done..].
  destruct (pushes_pos cap def Hc xs [] _ (Inv_init cap def Hc))
    as (d & E & I & P); [intros H; by destruct H|].
  cbn [app] in I, P. exists d. split; [done|]. split.
  - by apply (Inv_slot cap def Hc xs d i I P).
  - intros Hfull. assert (Hne : xs <> []) by (intros ->; cbn in Hi; lia).
    specialize (P Hne).
    pose proof (Inv_full_length cap def Hc xs d I Hfull) as Hlen.
    pose proof (inv_pos_le I) as Hple.
    pose proof (Z.div_mod (Z.of_nat (length xs) - 1) cap ltac:(lia)) as Hdm.
    pose proof (Z.mod_pos_bound (Z.of_nat (length xs) - 1) cap ltac:(lia)) as Hb.
    set (q := (Z.of_nat (length xs) - 1) / cap) in *.
    set (r := (Z.of_nat (length xs) - 1) mod cap) in *.
    unfold writeCursor, slot_of. case_decide as Ep.
    + rewrite <- (Z.mod_unique_pos (Z.of_nat (length xs)) cap (q + 1) 0);
        [done| |]; lia.
    + rewrite <- (Z.mod_unique_pos (Z.of_nat (length xs)) cap q
                    (Z.of_nat (_pos d)));
        [by rewrite Nat2Z.id| |]; lia.
Qed.

Lemma sample_slot_witness :
  exists d, pushes (map RealZ [5; 2; 9; 1; 7]) (mkDiffs [] 3 (RealZ (-1)) 0 0)
              = Some (tt, d) /\
            elems d !! slot_of 3 3 = map RealZ [5; 2; 9; 1; 7] !! 3%nat /\
            (3 <= Z.of_nat (length (map RealZ [5; 2; 9; 1; 7])) ->
             writeCursor d = slot_of 3 (length (map RealZ [5; 2; 9; 1; 7]))).
Proof.
  apply (sample_slot 3 (RealZ (-1)) (mkDiffs [] 3 (RealZ (-1)) 0 0)
           (map RealZ [5; 2; 9; 1; 7]) 3).
  - unfold in_long, LONG_MIN, LONG_MAX. lia.
  - lia.
  - reflexivity.
  - simpl. lia.
  - simpl. lia.
Defined.

(** *** What a client can rely on *)

(** X13.  After [n] pushes into a monitor of capacity [cap >= 1], [size()] is
    [min(n, cap)]: the vector grows by one per push until it holds [cap]
    samples and keeps that size from then on. *)
Theorem size_after_pushes (cap : Z) (def : Real) (d0 : Diffs) (xs : list Real) :
  in_long cap -> 1 <= cap -> Diffs_ctor cap def = inr d0 ->
  exists d, pushes xs d0 = Some (tt, d) /\
            size d = Some (Z.min (Z.of_nat (length xs)) cap, d).
Proof.
  intros Hl Hc Hd.
  destruct (reachable_Inv cap def d0 xs Hl Hc Hd) as (d & E & I).
  exists d. split; [done|]. unfold size. by rewrite (inv_len I).
Qed.

Lemma size_after_pushes_witness :
  exists d, pushes (map RealZ [5; 2; 9; 1]) (mkDiffs [] 3 (RealZ (-1)) 0 0)
              = Some (tt, d) /\
            size d = Some (Z.min (Z.of_nat (length (map RealZ [5; 2; 9; 1]))) 3, d).
Proof.
  apply (size_after_pushes 3 (RealZ (-1)) (mkDiffs [] 3 (RealZ (-1)) 0 0)
           (map RealZ [5; 2; 9; 1])).
  - unfold in_long, LONG_MIN, LONG_MAX. lia.
  - lia.
  - reflexivity.
Defined.

(** X14.  A NaN that has left the window has no effect: once [cap] or more
    samples were pushed and none of the last [cap] is NaN, [maxDiff()] is
    the maximum of the last [cap] samples, whatever was pushed before. *)
Theorem maxDiff_window_nan_free
    (cap : Z) (def : Real) (d0 : Diffs) (xs : list Real) :
  in_long cap -> 1 <= cap -> Diffs_ctor cap def = inr d0 ->
  cap <= Z.of_nat (length xs) ->
  nan_free (last_n (Z.to_nat cap) xs) = true ->
  exists d v, pushes xs d0 = Some (tt, d) /\
              maxDiff d = Some (v, d) /\
              maximum v (last_n (Z.to_nat cap) xs).
Proof.
  intros Hl Hc Hd Hx Hn.
  destruct (reachable_Inv cap def d0 xs Hl Hc Hd) as (d & E & I).
  destruct (maxDiff_Inv cap def Hc _ d I) as [_ Hfull].
  destruct (Hfull Hx) as (v & Ev & _ & Hmax).
  exists d, v. split; [done|]. split; [done|]. by apply maximal_maximum.
Qed.

Lemma maxDiff_window_nan_free_witness :
  exists d v, pushes [NaN; RealZ 1; RealZ 3; RealZ 2] (mkDiffs [] 2 (RealZ 0) 0 0)
                = Some (tt, d) /\
              maxDiff d = Some (v, d) /\
              maximum v (last_n 2 [NaN; RealZ 1; RealZ 3; RealZ 2]).
Proof.
  apply (maxDiff_window_nan_free 2 (RealZ 0) (mkDiffs [] 2 (RealZ 0) 0 0)
           [NaN; RealZ 1; RealZ 3; RealZ 2]).
  - unfold in_long, LONG_MIN, LONG_MAX. lia.
  - lia.
  - reflexivity.
  - simpl. lia.
  - reflexivity.
Defined.

(** X15.  The convergence test [maxDiff() < tol] on a full monitor: when it
    holds, every one of the last [cap] samples is below [tol] or is NaN;
    and when none of them is NaN, it holds exactly when all of them are
    below [tol]. *)
Theorem maxDiff_below_tol
    (cap : Z) (def : Real) (d0 : Diffs) (xs : list Real) (tol : Real) :
  in_long cap -> 1 <= cap -> Diffs_ctor cap def = inr d0 ->
  cap <= Z.of_nat (length xs) ->
  exists d v,
    pushes xs d0 = Some (tt, d) /\
    maxDiff d = Some (v, d) /\
    (Rlt v tol = true ->
     forall w, w ∈ last_n (Z.to_nat cap) xs ->
               Rlt w tol = true \/ isnan w = true) /\
    (nan_free (last_n (Z.to_nat cap) xs) = true ->
     (Rlt v tol = true <->
      forall w, w ∈ last_n (Z.to_nat cap) xs -> Rlt w tol = true)).
Proof.
  intros Hl Hc Hd Hx.
  destruct (reachable_Inv cap def d0 xs Hl Hc Hd) as (d & E & I).
  destruct (maxDiff_Inv cap def Hc _ d I) as [_ Hfull].
  destruct (Hfull Hx) as (v & Ev & _ & Hin & Hmax).
  exists d, v. split; [done|]. split; [done|].
  assert (Hbelow : Rlt v tol = true ->
    forall w, w ∈ last_n (Z.to_nat cap) xs -> Rlt w tol = true \/ isnan w = true).
  { intros Hv w Hw. destruct (isnan w) eqn:Nw; [by right|left].
    apply Rlt_not_nan in Hv as Hnv. destruct Hnv as [Hnv _].
    eapply Rle_lt_trans; [|exact Hv]. apply Rle_total; auto. }
  split; [done|]. intros Hn. split.
  - intros Hv w Hw. destruct (Hbelow Hv w Hw) as [?|Nw]; [done|].
    by rewrite (nan_free_elem _ _ Hn Hw) in Nw.
  - intros Hall. by apply Hall.
Qed.

Lemma maxDiff_below_tol_witness :
  exists d v,
    pushes (map RealZ [9; 1; 2]) (mkDiffs [] 2 (RealZ 0) 0 0) = Some (tt, d) /\
    maxDiff d = Some (v, d) /\
    (Rlt v (RealZ 3) = true ->
     forall w, w ∈ last_n 2 (map RealZ [9; 1; 2]) ->
               Rlt w (RealZ 3) = true \/ isnan w = true) /\
    (nan_free (last_n 2 (map RealZ [9; 1; 2])) = true ->
     (Rlt v (RealZ 3) = true <->
      forall w, w ∈ last_n 2 (map RealZ [9; 1; 2]) -> Rlt w (RealZ 3) = true)).
Proof.
  apply (maxDiff_below_tol 2 (RealZ 0) (mkDiffs [] 2 (RealZ 0) 0 0)
           (map RealZ [9; 1; 2]) (RealZ 3)).
  - unfold in_long, LONG_MIN, LONG_MAX. lia.
  - lia.
  - reflexivity.
  - simpl. lia.
Defined.

(** X16.  The newest sample always counts: on a monitor that is full after the
    push of [x], [maxDiff()] never compares less than [x], for any [x] and
    any history. *)
Theorem maxDiff_not_below_newest
    (cap : Z) (def : Real) (d0 : Diffs) (xs : list Real) (x : Real) :
  in_long cap -> 1 <= cap -> Diffs_ctor cap def = inr d0 ->
  cap <= Z.of_nat (length xs) + 1 ->
  exists d v, pushes (xs ++ [x]) d0 = Some (tt, d) /\
              maxDiff d = Some (v, d) /\
              Rlt v x = false.
Proof.
  intros Hl Hc Hd Hx.
  destruct (reachable_Inv cap def d0 (xs ++ [x]) Hl Hc Hd) as (d & E & I).
  destruct (maxDiff_Inv cap def Hc _ d I) as [_ Hfull].
  destruct Hfull as (v & Ev & _ & _ & Hmax);
    [rewrite length_app; cbn; lia|].
  exists d, v. split; [done|]. split; [done|].
  apply Hmax. unfold last_n. rewrite length_app. cbn [length].
  rewrite drop_app_le by lia. apply elem_of_app. right.
  by apply list_elem_of_singleton.
Qed.

Lemma maxDiff_not_below_newest_witness :
  exists d v, pushes (map RealZ [9; 1] ++ [RealZ 2]) (mkDiffs [] 2 (RealZ 0) 0 0)
                = Some (tt, d) /\
              maxDiff d = Some (v, d) /\
              Rlt v (RealZ 2) = false.
Proof.
  apply (maxDiff_not_below_newest 2 (RealZ 0) (mkDiffs [] 2 (RealZ 0) 0 0)
           (map RealZ [9; 1]) (RealZ 2)).
  - unfold in_long, LONG_MIN, LONG_MAX. lia.
  - lia.
  - reflexivity.
  - simpl. lia.
Defined.



(** X18.  The constructor succeeds exactly for the capacities from 0 up to the
    vector's [max_size()]: a negative one and one above [max_size()] both
    end in the [std::length_error] of [reserve]. *)
Theorem Diffs_ctor_succeeds_iff (maxsize : Z) (def : Real) :
  in_long maxsize ->
  ((exists d, Diffs_ctor maxsize def = inr d) <->
   0 <= maxsize <= vector_max_size) /\
  (~ 0 <= maxsize <= vector_max_size ->
   Diffs_ctor maxsize def = inl length_error).
Proof.
  unfold in_long, LONG_MIN, LONG_MAX. intros Hl.
  assert (Hv : 0 <= vector_max_size < 2 ^ 63).
  { unfold vector_max_size, LONG_MAX. split.
    - apply Z.div_pos; lia.
    - apply Z.div_lt_upper_bound; lia. }
  unfold Diffs_ctor, reserve, size_t_of_long, SIZE_MAX.
  destruct (Z.lt_ge_cases maxsize 0) as [Hn|Hn].
  - assert (E : maxsize mod (2 ^ 64 - 1 + 1) = maxsize + 2 ^ 64).
    { symmetry. apply (Z.mod_unique _ _ (-1)); lia. }
    rewrite E.
    destruct (Z.ltb_spec vector_max_size (maxsize + 2 ^ 64)); [|lia].
    split; [split; [intros [d ?]; done|lia]|done].
  - rewrite Z.mod_small by lia.
    destruct (Z.ltb_spec vector_max_size maxsize).
    + split; [split; [intros [d ?]; done|lia]|done].
    + split; [split; [lia|eauto]|lia].
Qed.

Lemma Diffs_ctor_succeeds_iff_witness :
  Diffs_ctor (2 ^ 62) (RealZ 0) = inl length_error.
Proof.
  refine (proj2 (Diffs_ctor_succeeds_iff (2 ^ 62) (RealZ 0) _) _).
  - unfold in_long, LONG_MIN, LONG_MAX. lia.
  - vm_compute. intros [_ H]. by apply H.
Defined.

(** X19.  [maxSize()] returns the constructor's argument, at any time: after
    every sequence of calls on a monitor that could be constructed. *)
Theorem maxSize_constant
    (maxsize : Z) (def : Real) (d0 d : Diffs)
    (cs : list call) (r : list answer) :
  in_long maxsize -> Diffs_ctor maxsize def = inr d0 ->
  run cs d0 = Some (r, d) ->
  maxSize d = Some (maxsize, d).
Proof.
  intros Hl Hd R.
  destruct (Diffs_ctor_succeeds_iff maxsize def Hl) as [[Hok _] _].
  assert (H0 : 0 <= maxsize <= vector_max_size) by eauto.
  apply run_frame in R as [Hm _].
  unfold maxSize, get_maxsize. rewrite Hm.
  revert Hd. unfold Diffs_ctor, reserve, size_t_of_long, SIZE_MAX.
  unfold in_long, LONG_MIN, LONG_MAX in Hl. rewrite Z.mod_small by lia.
  destruct (vector_max_size <? maxsize); intros Hd; by simplify_eq.
Qed.

Lemma maxSize_constant_witness :
  maxSize (mkDiffs (map RealZ [3; 2]) 2 (RealZ 0) 1 0)
  = Some (2, mkDiffs (map RealZ [3; 2]) 2 (RealZ 0) 1 0).
Proof.
  apply (maxSize_constant 2 (RealZ 0) (mkDiffs [] 2 (RealZ 0) 0 0)
           (mkDiffs (map RealZ [3; 2]) 2 (RealZ 0) 1 0)
           [Push (RealZ 1); MaxDiff; Push (RealZ 2); Push (RealZ 3); MaxSize]
           [Done; Value (RealZ 0); Done; Done; Count 2]).
  - unfold in_long, LONG_MIN, LONG_MAX. lia.
  - reflexivity.
  - reflexivity.
Defined.
